(** * Torbox Status addon: media identity resolution and stream mapping

    A shallow embedding of the engine of [index.js], in the variant that
    resolves titles against Cinemeta: the inventory cache
    ([getTorboxTorrents]), the name parser wrapper ([parseTorrentName]), the
    metadata search with its cache ([searchCinemeta]), the catalog assembly
    ([handleMediaCatalog]) and the stream handler with
    [generateStreamsForTorrent] and [getTorboxStreamLink].

    How the program is rendered:
    - a handler is a computation over the three module-level maps and the
      log of the requests sent so far; it returns or throws, and what it
      did before throwing stays done.  A handler runs from start to end:
      the interleaving of concurrent requests at an [await] is not
      modelled;
    - the network is a parameter: the answer to a request is a function of
      the URL and of the number of requests sent before it, so the same
      URL may be answered differently at different times;
    - [ptt.parse] of parse-torrent-title and [new Date(string)] are
      parameters as well; nothing is assumed of them;
    - strings are byte strings, case mapping and the classes [\w] and
      [\s] act on ASCII; numbers are integers; [console.log] is left out. *)

From Stdlib Require Import ZArith Lia List Ascii String Bool.
From Stdlib Require Import DecimalString DecimalZ Permutation Sorted.
From stdpp Require Import gmap strings list sets.

Import ListNotations.
Local Open Scope string_scope.

(** ** JavaScript built-ins used by the source *)

Module JS.

(** A JSON scalar as the timestamp and year fields carry it; [JUndef]
    stands for a missing field and for [null]. *)
Inductive jsval : Type :=
| JUndef
| JNum (n : Z)
| JStr (s : string).

(** [!v] is false, i.e. the value is truthy. *)
Definition truthy (v : jsval) : bool :=
  match v with
  | JUndef => false
  | JNum n => negb (n =? 0)%Z
  | JStr s => negb (s =? "")
  end.

(** Truthiness of an optional number and of an optional string. *)
Definition truthyZ (o : option Z) : bool :=
  match o with Some n => negb (n =? 0)%Z | None => false end.

Definition truthyS (o : option string) : bool :=
  match o with Some s => negb (s =? "") | None => false end.

(** [a || null] on an optional number: a falsy value becomes absent. *)
Definition orNullZ (o : option Z) : option Z :=
  if truthyZ o then o else None.

(** [String(n)] and template interpolation of an integer. *)
Definition String_ (n : Z) : string := NilZero.string_of_int (Z.to_int n).

Definition startsWith (s p : string) : bool := String.prefix p s.

Definition endsWith (s suf : string) : bool :=
  let n := String.length s in
  let m := String.length suf in
  if (m <=? n)%nat then String.eqb (String.substring (n - m) m s) suf
  else false.

Fixpoint includes (s sub : string) : bool :=
  String.prefix sub s
  || match s with
     | EmptyString => false
     | String _ s' => includes s' sub
     end.

Definition is_upper (c : ascii) : bool :=
  let n := nat_of_ascii c in (65 <=? n)%nat && (n <=? 90)%nat.

Definition is_lower (c : ascii) : bool :=
  let n := nat_of_ascii c in (97 <=? n)%nat && (n <=? 122)%nat.

Definition is_digit (c : ascii) : bool :=
  let n := nat_of_ascii c in (48 <=? n)%nat && (n <=? 57)%nat.

Definition lower_char (c : ascii) : ascii :=
  if is_upper c then ascii_of_nat (nat_of_ascii c + 32) else c.

Definition upper_char (c : ascii) : ascii :=
  if is_lower c then ascii_of_nat (nat_of_ascii c - 32) else c.

Fixpoint map_string (f : ascii -> ascii) (s : string) : string :=
  match s with
  | EmptyString => EmptyString
  | String c s' => String (f c) (map_string f s')
  end.

(** Case mapping on the ASCII letters; other bytes are left alone. *)
Definition toLowerCase : string -> string := map_string lower_char.
Definition toUpperCase : string -> string := map_string upper_char.

(** The regular-expression classes [\w] and [\s] on bytes. *)
Definition is_word (c : ascii) : bool :=
  is_upper c || is_lower c || is_digit c || (nat_of_ascii c =? 95)%nat.

Definition is_ws (c : ascii) : bool :=
  let n := nat_of_ascii c in
  (n =? 32)%nat || ((9 <=? n)%nat && (n <=? 13)%nat).

(** [s.replace(/[^\w\s]/g, ' ')] *)
Definition blank_punct (c : ascii) : ascii :=
  if is_word c || is_ws c then c else " "%char.

(** [s.replace(/\s+/g, ' ')]: [inrun] says the previous byte was
    whitespace, whose run has already produced its single space. *)
Fixpoint collapse_ws (inrun : bool) (s : string) : string :=
  match s with
  | EmptyString => EmptyString
  | String c s' =>
      if is_ws c then
        if inrun then collapse_ws true s'
        else String " "%char (collapse_ws true s')
      else String c (collapse_ws false s')
  end.

Fixpoint trim_left (s : string) : string :=
  match s with
  | String c s' => if is_ws c then trim_left s' else s
  | EmptyString => EmptyString
  end.

(** Drops the trailing whitespace: a byte is kept when something other
    than whitespace follows it. *)
Fixpoint trim_right (s : string) : string :=
  match s with
  | EmptyString => EmptyString
  | String c s' =>
      match trim_right s' with
      | EmptyString => if is_ws c then EmptyString else String c EmptyString
      | r => String c r
      end
  end.

Definition trim (s : string) : string := trim_right (trim_left s).

Definition hex_digit (n : nat) : ascii :=
  if (n <? 10)%nat then ascii_of_nat (48 + n) else ascii_of_nat (55 + n).

(** Bytes [encodeURIComponent] leaves as they are. *)
Definition uri_unreserved (c : ascii) : bool :=
  is_upper c || is_lower c || is_digit c
  || existsb (Ascii.eqb c)
       ["-"; "_"; "."; "!"; "~"; "*"; "'"; "("; ")"]%char.

Fixpoint encodeURIComponent (s : string) : string :=
  match s with
  | EmptyString => EmptyString
  | String c s' =>
      if uri_unreserved c then String c (encodeURIComponent s')
      else
        let n := nat_of_ascii c in
        String "%"%char
          (String (hex_digit (n / 16))
             (String (hex_digit (n mod 16)) (encodeURIComponent s')))
  end.

(** [parseInt(s)] without a radix, on the decimal prefix of [s];
    [None] is [NaN]. *)
Fixpoint digits_prefix (s : string) (acc : option Z) : option Z :=
  match s with
  | String c s' =>
      if is_digit c then
        let d := Z.of_nat (nat_of_ascii c - 48) in
        digits_prefix s'
          (Some (match acc with Some a => 10 * a + d | None => d end)%Z)
      else acc
  | EmptyString => acc
  end.

Definition hex_value (c : ascii) : option Z :=
  let n := nat_of_ascii c in
  if is_digit c then Some (Z.of_nat (n - 48))
  else if (97 <=? n)%nat && (n <=? 102)%nat then Some (Z.of_nat (n - 87))
  else if (65 <=? n)%nat && (n <=? 70)%nat then Some (Z.of_nat (n - 55))
  else None.

Fixpoint hex_prefix (s : string) (acc : option Z) : option Z :=
  match s with
  | String c s' =>
      match hex_value c with
      | Some d =>
          hex_prefix s'
            (Some (match acc with Some a => 16 * a + d | None => d end)%Z)
      | None => acc
      end
  | EmptyString => acc
  end.

(** The digits after the sign: a [0x] or [0X] prefix selects base 16. *)
Definition unsigned_prefix (s : string) : option Z :=
  match s with
  | String "0"%char (String "x"%char r) => hex_prefix r None
  | String "0"%char (String "X"%char r) => hex_prefix r None
  | _ => digits_prefix s None
  end.

Definition parseInt (s : string) : option Z :=
  match trim_left s with
  | String "-"%char r => option_map Z.opp (unsigned_prefix r)
  | String "+"%char r => unsigned_prefix r
  | r => unsigned_prefix r
  end.

(** [Array.prototype.sort] with a comparison function: the sort is
    stable, and a comparison that yields [NaN] (here [None]) counts as 0.
    The element [x] comes from before every element of [l], so it stays
    in front of the first [y] it does not compare greater than. *)
Fixpoint sort_insert {A : Type} (cmp : A -> A -> option Z) (x : A)
    (l : list A) : list A :=
  match l with
  | [] => [x]
  | y :: r =>
      if (default 0%Z (cmp x y) <=? 0)%Z then x :: y :: r
      else y :: sort_insert cmp x r
  end.

Definition sort {A : Type} (cmp : A -> A -> option Z) (l : list A)
    : list A :=
  fold_right (sort_insert cmp) [] l.

(** A [Date] object is its time value in milliseconds; [None] is the
    [NaN] of an invalid date. *)
Definition Date : Type := option Z.

(** [new Date(n)] for a number: the time clip of the language. *)
Definition Date_of_number (n : Z) : Date :=
  if (Z.abs n <=? 8640000000000000)%Z then Some n else None.

Definition getTime (d : Date) : option Z := d.

(** [new Date(s)] for a string, restricted to the date-time string
    format of the language in UTC: [YYYY-MM-DD] and
    [YYYY-MM-DDTHH:mm:ss] with an optional [.sss], ending in [Z].
    Engines accept further formats of their own; this instance of the
    built-in calls everything else invalid. *)
Fixpoint read_digits (n : nat) (s : string) (acc : Z)
    : option (Z * string) :=
  match n with
  | O => Some (acc, s)
  | S n' =>
      match s with
      | String c s' =>
          if is_digit c
          then read_digits n' s' (10 * acc + Z.of_nat (nat_of_ascii c - 48))%Z
          else None
      | EmptyString => None
      end
  end.

Definition expect (c : ascii) (s : string) : option string :=
  match s with
  | String c' s' => if Ascii.eqb c c' then Some s' else None
  | EmptyString => None
  end.

Definition leap_year (y : Z) : bool :=
  ((y mod 4 =? 0) && negb (y mod 100 =? 0) || (y mod 400 =? 0))%Z.

Definition days_in_month (y m : Z) : Z :=
  if (m =? 2)%Z then (if leap_year y then 29 else 28)%Z
  else if ((m =? 4) || (m =? 6) || (m =? 9) || (m =? 11))%Z then 30%Z
  else 31%Z.

(** Days from 1970-01-01 to the given civil date. *)
Definition days_from_civil (y m d : Z) : Z :=
  let y' := (if m <=? 2 then y - 1 else y)%Z in
  let era := (y' / 400)%Z in
  let yoe := (y' - era * 400)%Z in
  let mp := (if 2 <? m then m - 3 else m + 9)%Z in
  let doy := ((153 * mp + 2) / 5 + d - 1)%Z in
  let doe := (yoe * 365 + yoe / 4 - yoe / 100 + doy)%Z in
  (era * 146097 + doe - 719468)%Z.

Definition iso_time (s : string) : option Z :=
  '(h, s) ← read_digits 2 s 0%Z;
  s ← expect ":" s;
  '(mi, s) ← read_digits 2 s 0%Z;
  s ← expect ":" s;
  '(sec, s) ← read_digits 2 s 0%Z;
  '(ms, s) ← match s with
             | String "."%char r => read_digits 3 r 0%Z
             | _ => Some (0%Z, s)
             end;
  if (s =? "Z") && (h <? 24)%Z && (mi <? 60)%Z && (sec <? 60)%Z
  then Some (((h * 60 + mi) * 60 + sec) * 1000 + ms)%Z
  else None.

Definition Date_parse_iso (s : string) : Date :=
  '(y, s) ← read_digits 4 s 0%Z;
  s ← expect "-" s;
  '(m, s) ← read_digits 2 s 0%Z;
  s ← expect "-" s;
  '(d, s) ← read_digits 2 s 0%Z;
  if ((1 <=? m) && (m <=? 12) && (1 <=? d) && (d <=? days_in_month y m))%Z
  then
    let day := (days_from_civil y m d * 86400000)%Z in
    match s with
    | EmptyString => Some day
    | String "T"%char r => t ← iso_time r; Some (day + t)%Z
    | _ => None
    end
  else None.

End JS.

Import JS.

(** ** Data model *)

(** The two catalog kinds, [type] in the source. *)
Inductive MediaType : Type := movie | series.

Definition type_str (t : MediaType) : string :=
  match t with movie => "movie" | series => "series" end.

Definition type_eqb (a b : MediaType) : bool :=
  match a, b with
  | movie, movie | series, series => true
  | _, _ => false
  end.

(** What [ptt.parse] of the parse-torrent-title package returns: every
    field may be missing. *)
Record PttResult : Type := mkPtt {
  ptt_title : option string;
  ptt_year : option Z;
  ptt_season : option Z;
  ptt_episode : option Z;
  ptt_resolution : option string;
  ptt_quality : option string
}.

(** The object [parseTorrentName] returns. *)
Record Descriptor : Type := mkDescriptor {
  title : string;
  year : option Z;
  season : option Z;
  episode : option Z;
  quality : option string;
  type : MediaType
}.

(** One element of [torrent.files]. *)
Record TFile : Type := mkFile {
  f_id : Z;
  f_name : string
}.

(** An inventory entry as the account API lists it, with the two fields
    [_imdbId] and [_parsed] the engine adds to the object. *)
Record Torrent : Type := mkTorrent {
  t_id : Z;
  t_name : string;
  t_created_at : jsval;
  t_updated_at : jsval;
  t_files : option (list TFile);
  t_imdbId : option string;
  t_parsed : option Descriptor
}.

(** A record of the metadata catalog (an element of [data.metas]). *)
Record CineMeta : Type := mkCineMeta {
  cm_id : string;
  cm_name : string;
  cm_poster : option string;
  cm_background : option string;
  cm_description : option string;
  cm_releaseInfo : option string;
  cm_imdbRating : option string;
  cm_year : jsval
}.

(** An element of the [metas] array a catalog request answers with. *)
Record CatalogMeta : Type := mkCatalogMeta {
  m_id : string;
  m_type : MediaType;
  m_name : string;
  m_poster : option string;
  m_background : option string;
  m_description : option string;
  m_releaseInfo : string;
  m_imdbRating : option string;
  m_torboxId : Z;
  m_quality : string;
  m_torrentName : string
}.

(** An element of the [streams] array. *)
Record Stream : Type := mkStream {
  s_name : string;
  s_title : string;
  s_url : option string
}.

(** ** The outside world *)

(** The JSON body of a successful response, by the field the caller
    reads: [data] of the inventory listing, [metas] of a search, [data] of
    a link request.  A body without the field read is [BOther]. *)
Inductive Body : Type :=
| BList (data : option (list Torrent))
| BSearch (metas : option (list CineMeta))
| BLink (data : option string)
| BOther.

(** What awaiting [fetch] and then [response.json()] comes to: [NetFail]
    is a rejected promise (transport error, timeout, a body that is not
    JSON), which raises at the await; [HttpErr] is a response whose [ok]
    is false. *)
Inductive Response : Type :=
| NetFail
| HttpErr (status : Z)
| HttpOk (body : Body).

(** The three module-level maps, and the URLs requested so far (oldest
    first).  [torrentsCache] is iterated by the stream handler, so it keeps
    the insertion order of the JavaScript [Map]. *)
Record World : Type := mkWorld {
  torrentsCache : list (string * Torrent);
  cinemetaCache : gmap string CineMeta;
  searchCache : gmap string (option CineMeta);
  netLog : list string
}.

(** [Map.prototype.set] on the ordered map: an existing key keeps its
    place, a new one goes last. *)
Fixpoint map_set {V : Type} (k : string) (v : V) (m : list (string * V))
    : list (string * V) :=
  match m with
  | [] => [(k, v)]
  | (k', v') :: r =>
      if String.eqb k' k then (k, v) :: r else (k', v') :: map_set k v r
  end.

Fixpoint map_get {V : Type} (k : string) (m : list (string * V)) : option V :=
  match m with
  | [] => None
  | (k', v') :: r => if String.eqb k' k then Some v' else map_get k r
  end.

(** ** Computations: state and exceptions *)

Inductive result (A : Type) : Type :=
| Ok (a : A)
| Throw (message : string).

Arguments Ok {A} a.
Arguments Throw {A} message.

(** A computation reads and updates the world and either returns or
    throws; what it did to the world before throwing stays done. *)
Definition M (A : Type) : Type := World -> result A * World.

Definition ret {A : Type} (a : A) : M A := fun w => (Ok a, w).

Definition throw {A : Type} (msg : string) : M A := fun w => (Throw msg, w).

Definition bind {A B : Type} (m : M A) (k : A -> M B) : M B :=
  fun w =>
    match m w with
    | (Ok a, w') => k a w'
    | (Throw e, w') => (Throw e, w')
    end.

(** [try { m } catch (error) { h error }] *)
Definition try_catch {A : Type} (m : M A) (h : string -> M A) : M A :=
  fun w =>
    match m w with
    | (Ok a, w') => (Ok a, w')
    | (Throw e, w') => h e w'
    end.

Definition get_world : M World := fun w => (Ok w, w).

Definition modify (f : World -> World) : M unit := fun w => (Ok tt, f w).

(** A function that may throw, run as a computation. *)
Definition lift {A : Type} (r : result A) : M A := fun w => (r, w).

Declare Scope js_scope.
Delimit Scope js_scope with js.
Notation "x <- m ;; k" := (bind m (fun x => k))
  (at level 100, m at next level, right associativity) : js_scope.
Notation "m ;;; k" := (bind m (fun _ => k))
  (at level 100, right associativity) : js_scope.
Local Open Scope js_scope.

Definition set_torrentsCache (c : list (string * Torrent)) (w : World)
    : World :=
  mkWorld c (cinemetaCache w) (searchCache w) (netLog w).

Definition set_cinemetaCache (c : gmap string CineMeta) (w : World) : World :=
  mkWorld (torrentsCache w) c (searchCache w) (netLog w).

Definition set_searchCache (c : gmap string (option CineMeta)) (w : World)
    : World :=
  mkWorld (torrentsCache w) (cinemetaCache w) c (netLog w).

Definition log_request (url : string) (w : World) : World :=
  mkWorld (torrentsCache w) (cinemetaCache w) (searchCache w)
    (netLog w ++ [url]).

Definition TORBOX_API_URL : string := "https://api.torbox.app/v1/api".
Definition CINEMETA_URL : string := "https://v3-cinemeta.strem.io".

Definition newline : string := String (ascii_of_nat 10) EmptyString.

(** The address of the inventory listing. *)
Definition mylistUrl : string :=
  TORBOX_API_URL +:+ "/torrents/mylist?bypass_cache=true".

(** ** The engine *)

Definition qualities : list string :=
  ["2160p"; "4K"; "UHD"; "1080p"; "720p"; "480p"; "HDR"; "DV"; "REMUX"].

Definition extractQuality (name : string) : string :=
  match
    find (fun q => includes (toUpperCase name) (toUpperCase q)) qualities
  with
  | Some q => q
  | None => ""
  end.

Definition generatePoster (emoji value bgColor : string) : string :=
  "https://placehold.co/300x450/" +:+ bgColor +:+ "/ffffff?text="
  +:+ encodeURIComponent (emoji +:+ newline +:+ value) +:+ "&font=roboto".

(** The title as it goes into the search URL. *)
Definition cleanTitle (title : string) : string :=
  trim (collapse_ws false (map_string blank_punct title)).

Definition searchUrl (type : MediaType) (title : string) : string :=
  CINEMETA_URL +:+ "/catalog/" +:+ type_str type +:+ "/top/search="
  +:+ encodeURIComponent (cleanTitle title) +:+ ".json".

Definition cacheKey (type : MediaType) (title : string) (year : option Z)
    : string :=
  type_str type +:+ ":" +:+ title +:+ ":"
  +:+ (if truthyZ year then String_ (default 0%Z year) else "").

(** The predicate of [data.metas.find] in [searchCinemeta]:
    [(m.year || (m.releaseInfo && parseInt(m.releaseInfo))) === year] for a
    truthy number [year]. *)
Definition yearMatches (y : Z) (m : CineMeta) : bool :=
  if truthy (cm_year m) then
    match cm_year m with JNum n => (n =? y)%Z | _ => false end
  else if truthyS (cm_releaseInfo m) then
    match parseInt (default "" (cm_releaseInfo m)) with
    | Some n => (n =? y)%Z
    | None => false
    end
  else false.

Definition bestMatch (year : option Z) (first : CineMeta)
    (metas : list CineMeta) : CineMeta :=
  if truthyZ year then
    match find (yearMatches (default 0%Z year)) metas with
    | Some yearMatch => yearMatch
    | None => first
    end
  else first.

(** The torrent object after [_imdbId] and [_parsed] are assigned. *)
Definition annotate (t : Torrent) (imdbId : string) (parsed : Descriptor)
    : Torrent :=
  mkTorrent (t_id t) (t_name t) (t_created_at t) (t_updated_at t) (t_files t)
    (Some imdbId) (Some parsed).

(** The torrent object after [_imdbId] alone is assigned. *)
Definition set_imdbId (t : Torrent) (imdbId : string) : Torrent :=
  mkTorrent (t_id t) (t_name t) (t_created_at t) (t_updated_at t) (t_files t)
    (Some imdbId) (t_parsed t).

Definition videoExtensions : list string :=
  [".mkv"; ".mp4"; ".avi"; ".mov"; ".wmv"; ".webm"].

Definition isVideo (file : TFile) : bool :=
  existsb (fun ext => endsWith (toLowerCase (f_name file)) ext)
    videoExtensions.

Definition streamTitle (name : string) : string :=
  let quality := extractQuality name in
  (if negb (quality =? "") then quality +:+ " • " else "") +:+ name.

(** [id.replace('tb:', '')] on an id that starts with [tb:]. *)
Fixpoint drop_string (n : nat) (s : string) : string :=
  match n, s with
  | S n', String _ s' => drop_string n' s'
  | _, _ => s
  end.

(** [torrent.name || 'Sans nom'] *)
Definition entryName (torrent : Torrent) : string :=
  if negb (t_name torrent =? "") then t_name torrent else "Sans nom".

(** [parsed.quality || extractQuality(name)] *)
Definition entryQuality (name : string) (parsed : Descriptor) : string :=
  if truthyS (quality parsed) then default "" (quality parsed)
  else extractQuality name.

(** The object pushed for an entry the metadata search has resolved. *)
Definition cinemetaEntry (catalogType : MediaType) (torrent : Torrent)
    (parsed : Descriptor) (cinemetaResult : CineMeta) : CatalogMeta :=
  let name := entryName torrent in
  {| m_id := cm_id cinemetaResult;
     m_type := catalogType;
     m_name := cm_name cinemetaResult;
     m_poster := cm_poster cinemetaResult;
     m_background := cm_background cinemetaResult;
     m_description := cm_description cinemetaResult;
     m_releaseInfo :=
       if truthyS (cm_releaseInfo cinemetaResult)
       then default "" (cm_releaseInfo cinemetaResult)
       else if truthyZ (year parsed)
            then String_ (default 0%Z (year parsed))
            else "";
     m_imdbRating := cm_imdbRating cinemetaResult;
     m_torboxId := t_id torrent;
     m_quality := entryQuality name parsed;
     m_torrentName := name |}.

(** The object pushed for an entry the search has found nothing for. *)
Definition fallbackEntry (catalogType : MediaType) (torrent : Torrent)
    (parsed : Descriptor) : CatalogMeta :=
  let name := entryName torrent in
  let quality := entryQuality name parsed in
  {| m_id := "tb:" +:+ String_ (t_id torrent);
     m_type := catalogType;
     m_name := title parsed;
     m_poster :=
       Some (generatePoster "🎬"
               (if negb (quality =? "") then quality else "?") "2d4a3e");
     m_background := None;
     m_description := Some ("Release: " +:+ name);
     m_releaseInfo :=
       if truthyZ (year parsed)
       then String_ (default 0%Z (year parsed))
       else quality;
     m_imdbRating := None;
     m_torboxId := t_id torrent;
     m_quality := quality;
     m_torrentName := name |}.

Section Engine.

(** [process.env.TORBOX_API_KEY] *)
Variable TORBOX_API_KEY : option string.

(** [ptt.parse] of the parse-torrent-title package; the package is not
    part of the repository, so nothing is assumed of it, not even that it
    returns. *)
Variable ptt_parse : string -> result PttResult.

(** [new Date(s)] for a string. *)
Variable Date_parse : string -> Date.

(** The remote services: the answer to the [n]-th request of the process
    when it asks for [url]. *)
Variable net : nat -> string -> Response.

Definition fetch (url : string) : M Response :=
  fun w => (Ok (net (length (netLog w)) url), log_request url w).

Definition getTorboxTorrents : M (list Torrent) :=
  if negb (truthyS TORBOX_API_KEY) then throw "TORBOX_API_KEY non configurée"
  else
    response <- fetch mylistUrl ;;
    match response with
    | NetFail => throw "request failed"
    | HttpErr status => throw ("Erreur API Torbox: " +:+ String_ status)
    | HttpOk body =>
        let torrents :=
          match body with BList (Some l) => l | _ => [] end in
        modify (fun w =>
          set_torrentsCache
            (fold_left (fun c t => map_set (String_ (t_id t)) t c)
               torrents (torrentsCache w)) w) ;;;
        ret torrents
    end.

Definition parseTorrentName (name : string) : result Descriptor :=
  match ptt_parse name with
  | Throw e => Throw e
  | Ok parsed =>
      let type :=
        if truthyZ (ptt_season parsed) || truthyZ (ptt_episode parsed)
        then series else movie in
      Ok {| title :=
              if truthyS (ptt_title parsed)
              then default "" (ptt_title parsed) else name;
            year := orNullZ (ptt_year parsed);
            season := orNullZ (ptt_season parsed);
            episode := orNullZ (ptt_episode parsed);
            quality :=
              if truthyS (ptt_resolution parsed) then ptt_resolution parsed
              else if truthyS (ptt_quality parsed) then ptt_quality parsed
              else None;
            type := type |}
  end.

Definition searchCinemeta (title : string) (type : MediaType)
    (year : option Z) : M (option CineMeta) :=
  let cacheKey := cacheKey type title year in
  w <- get_world ;;
  match searchCache w !! cacheKey with
  | Some cached => ret cached
  | None =>
      try_catch
        (response <- fetch (searchUrl type title) ;;
         match response with
         | NetFail => throw "request failed"
         | HttpErr status => ret None
         | HttpOk body =>
             match body with
             | BSearch (Some (first :: rest)) =>
                 let bestMatch := bestMatch year first (first :: rest) in
                 modify (fun w =>
                   set_searchCache
                     (<[cacheKey := Some bestMatch]> (searchCache w)) w) ;;;
                 modify (fun w =>
                   set_cinemetaCache
                     (<[cm_id bestMatch := bestMatch]> (cinemetaCache w))
                     w) ;;;
                 ret (Some bestMatch)
             | _ =>
                 modify (fun w =>
                   set_searchCache
                     (<[cacheKey := None]> (searchCache w)) w) ;;;
                 ret None
             end
         end)
        (fun _ => ret None)
  end.

(** The URL [getTorboxStreamLink] builds: [file_id] is appended under
    [if (fileId)]. *)
Definition requestdlUrl (torrentId : Z) (fileId : option Z) : string :=
  let url :=
    TORBOX_API_URL +:+ "/torrents/requestdl?token="
    +:+ default "" TORBOX_API_KEY +:+ "&torrent_id=" +:+ String_ torrentId in
  if truthyZ fileId
  then url +:+ "&file_id=" +:+ String_ (default 0%Z fileId)
  else url.

Definition getTorboxStreamLink (torrentId : Z) (fileId : option Z)
    : M (option string) :=
  if negb (truthyS TORBOX_API_KEY) then throw "TORBOX_API_KEY non configurée"
  else
    response <- fetch (requestdlUrl torrentId fileId) ;;
    match response with
    | NetFail => throw "request failed"
    | HttpErr status => throw ("Erreur API Torbox: " +:+ String_ status)
    | HttpOk body =>
        ret (match body with BLink data => data | _ => None end)
    end.

Definition parseDate (dateValue : jsval) : option Date :=
  if negb (truthy dateValue) then None
  else
    match dateValue with
    | JNum n =>
        if (10 ^ 12 <? n)%Z then Some (Date_of_number n)
        else Some (Date_of_number (n * 1000))
    | JStr s => Some (Date_parse s)
    | JUndef => None
    end.

(** [parseDate(t.updated_at) || parseDate(t.created_at) || new Date(0)]:
    a [Date] object is truthy whatever its time value. *)
Definition sortDate (t : Torrent) : Date :=
  match parseDate (t_updated_at t) with
  | Some d => d
  | None =>
      match parseDate (t_created_at t) with
      | Some d => d
      | None => Date_of_number 0
      end
  end.

(** The comparison function of the sort: [dateB.getTime() -
    dateA.getTime()], [NaN] when either date is invalid. *)
Definition compareTorrents (a b : Torrent) : option Z :=
  match getTime (sortDate b), getTime (sortDate a) with
  | Some tb, Some ta => Some (tb - ta)%Z
  | _, _ => None
  end.

(** One turn of the [for] loop of [handleMediaCatalog] past the cap
    test: [st] is [metas] with [seenImdb]; returning [st] as it came is
    the [continue]. *)
Definition catalogEntry (catalogType : MediaType) (torrent : Torrent)
    (st : list CatalogMeta * gset string)
    : M (list CatalogMeta * gset string) :=
  let '(metas, seenImdb) := st in
  let name := entryName torrent in
  parsed <- lift (parseTorrentName name) ;;
  if negb (type_eqb (type parsed) catalogType) then ret st
  else
    cinemetaResult <-
      searchCinemeta (title parsed) (type parsed) (year parsed) ;;
    match cinemetaResult with
    | Some r =>
        if bool_decide (cm_id r ∈ seenImdb) then ret st
        else
          (if negb (truthyS (t_imdbId torrent)) then
             modify (fun w =>
               set_torrentsCache
                 (map_set (String_ (t_id torrent))
                    (annotate torrent (cm_id r) parsed)
                    (torrentsCache w)) w)
           else ret tt) ;;;
          ret ((metas ++ [cinemetaEntry catalogType torrent parsed r])%list,
               {[ cm_id r ]} ∪ seenImdb)
    | None =>
        let fallbackId := "tb:" +:+ String_ (t_id torrent) in
        if bool_decide (fallbackId ∈ seenImdb) then ret st
        else
          ret ((metas ++ [fallbackEntry catalogType torrent parsed])%list,
               {[ fallbackId ]} ∪ seenImdb)
    end.

(** The [for (const torrent of sorted)] loop, with its [break] at 20. *)
Fixpoint catalogLoop (catalogType : MediaType) (sorted : list Torrent)
    (st : list CatalogMeta * gset string)
    : M (list CatalogMeta * gset string) :=
  match sorted with
  | [] => ret st
  | torrent :: rest =>
      if (20 <=? length (fst st))%nat then ret st
      else
        st' <- catalogEntry catalogType torrent st ;;
        catalogLoop catalogType rest st'
  end.

Definition handleMediaCatalog (catalogType : MediaType)
    : M (list CatalogMeta) :=
  try_catch
    (torrents <- getTorboxTorrents ;;
     let sorted := sort compareTorrents torrents in
     st <- catalogLoop catalogType sorted ([], ∅) ;;
     ret (fst st))
    (fun _ => ret []).

(** The [for (const file of torrent.files)] loop of
    [generateStreamsForTorrent]. *)
Fixpoint streamsForFiles (torrent : Torrent) (files : list TFile)
    (streams : list Stream) : M (list Stream) :=
  match files with
  | [] => ret streams
  | file :: rest =>
      if isVideo file then
        streams' <-
          try_catch
            (streamUrl <-
               getTorboxStreamLink (t_id torrent) (Some (f_id file)) ;;
             ret (streams ++
                  [ {| s_name := "⚡ Torbox";
                       s_title := streamTitle (f_name file);
                       s_url := streamUrl |} ])%list)
            (fun _ => ret streams) ;;
        streamsForFiles torrent rest streams'
      else streamsForFiles torrent rest streams
  end.

Definition generateStreamsForTorrent (torrent : Torrent) : M (list Stream) :=
  match t_files torrent with
  | Some (file :: rest) => streamsForFiles torrent (file :: rest) []
  | _ =>
      try_catch
        (streamUrl <- getTorboxStreamLink (t_id torrent) None ;;
         ret [ {| s_name := "⚡ Torbox";
                  s_title := streamTitle (t_name torrent);
                  s_url := streamUrl |} ])
        (fun _ => ret [])
  end.

(** First loop of the stream handler over [torrentsCache]: the first
    entry with [t._imdbId === id]. *)
Definition scanAnnotated (id : string) (entries : list (string * Torrent))
    : option Torrent :=
  snd <$> find (fun kt => bool_decide (t_imdbId (snd kt) = Some id)) entries.

(** Second loop: parse and search each entry until one resolves to
    [id]; the assignment [t._imdbId = id] changes the object the map
    holds under the entry's key. *)
Fixpoint scanResolve (id : string) (entries : list (string * Torrent))
    : M (option Torrent) :=
  match entries with
  | [] => ret None
  | (k, t) :: rest =>
      parsed <- lift (parseTorrentName (t_name t)) ;;
      cinemetaResult <-
        searchCinemeta (title parsed) (type parsed) (year parsed) ;;
      match cinemetaResult with
      | Some r =>
          if cm_id r =? id then
            modify (fun w =>
              set_torrentsCache
                (map_set k (set_imdbId t id) (torrentsCache w)) w) ;;;
            ret (Some (set_imdbId t id))
          else scanResolve id rest
      | None => scanResolve id rest
      end
  end.

(** The entry the stream handler settles on for [id]. *)
Definition locateTorrent (id : string) : M (option Torrent) :=
  if startsWith id "tb:" then
    let torrentId := drop_string 3 id in
    w <- get_world ;;
    match map_get torrentId (torrentsCache w) with
    | Some t => ret (Some t)
    | None =>
        getTorboxTorrents ;;;
        w' <- get_world ;;
        ret (map_get torrentId (torrentsCache w'))
    end
  else if startsWith id "tt" then
    getTorboxTorrents ;;;
    w <- get_world ;;
    match scanAnnotated id (torrentsCache w) with
    | Some t => ret (Some t)
    | None => scanResolve id (torrentsCache w)
    end
  else ret None.

(** The function given to [builder.defineStreamHandler]. *)
Definition streamHandler (type id : string) : M (list Stream) :=
  if negb (existsb (String.eqb type) ["movie"; "series"; "other"])
  then ret []
  else
    try_catch
      (torrent <- locateTorrent id ;;
       match torrent with
       | None => ret []
       | Some t => generateStreamsForTorrent t
       end)
      (fun _ => ret []).

End Engine.

(** ** Sample data *)

Module Fixtures.

Definition key : option string := Some "K".

(** A stand-in for the title parser that detects nothing: the whole
    name is the title.  On the empty name it hands back the empty title,
    as a parser that cuts the title out of its input must. *)
Definition ptt_plain (name : string) : result PttResult :=
  Ok (mkPtt (Some name) None None None None None).

(** A stand-in that throws on one particular name. *)
Definition ptt_picky (name : string) : result PttResult :=
  if name =? "bad" then Throw "cannot parse" else ptt_plain name.

Definition raw (id : Z) (name : string) (created updated : jsval)
    (files : option (list TFile)) : Torrent :=
  mkTorrent id name created updated files None None.

Definition d_plain (name : string) : Descriptor :=
  mkDescriptor name None None None None movie.

Definition cine (id name : string) : CineMeta :=
  mkCineMeta id name None None None None None JUndef.

Definition w0 : World := mkWorld [] ∅ ∅ [].

(** A world whose inventory is [l], whose metadata search answers
    [search] and whose link requests all succeed. *)
Definition net_of (l : list Torrent) (search : nat -> string -> Response)
    (n : nat) (url : string) : Response :=
  if url =? mylistUrl then HttpOk (BList (Some l))
  else if startsWith url CINEMETA_URL then search n url
  else HttpOk (BLink (Some "https://cdn.example/stream")).

Definition search_down (n : nat) (url : string) : Response := HttpErr 500.

Definition search_all (m : CineMeta) (n : nat) (url : string) : Response :=
  HttpOk (BSearch (Some [m])).

Definition tt1 : CineMeta := cine "tt0000001" "Movie Name".

(** One entry in the account, which the metadata search identifies. *)
Definition net_one : nat -> string -> Response :=
  net_of [raw 1 "Movie Name 2021" JUndef (JNum 1700000000) None]
    (search_all tt1).

(** Two entries: the older one carries a well-formed [updated_at], the
    newer one a text that is no date and a well-formed [created_at]. *)
Definition older : Torrent :=
  raw 1 "Older" JUndef (JStr "2020-09-13T12:26:40Z") None.

Definition newer : Torrent :=
  raw 2 "Newer" (JStr "2023-11-14T22:13:20Z") (JStr "n/a") None.

(** Twenty entries with names of their own, and one more, on whose
    name [ptt_picky] throws. *)
Definition twenty : list Torrent :=
  map (fun i =>
         raw (Z.of_nat i) ("Movie " +:+ String_ (Z.of_nat i))
           JUndef JUndef None)
    (seq 1 20).

Definition unparsed : Torrent := raw 99 "bad" JUndef JUndef None.

(** Two quality variants of one title. *)
Definition variant_a : Torrent :=
  raw 1 "Movie Name 1080p" JUndef (JNum 1700000000) None.

Definition variant_b : Torrent :=
  raw 2 "Movie Name 720p" JUndef (JNum 1600000000)
    (Some [mkFile 1 "Movie.Name.720p.mkv"]).

Definition net_variants : nat -> string -> Response :=
  net_of [variant_a; variant_b] (search_all tt1).

(** One entry, and a metadata service that is down. *)
Definition lonely : Torrent := raw 7 "Movie One" JUndef JUndef None.

Definition net_down : nat -> string -> Response :=
  net_of [lonely] search_down.

End Fixtures.

(** What a completed search response amounts to: the record picked from
    a non-empty [metas], nothing otherwise. *)
Definition searchOutcome (year : option Z) (body : Body) : option CineMeta :=
  match body with
  | BSearch (Some (first :: rest)) => Some (bestMatch year first (first :: rest))
  | _ => None
  end.

(** The two [set] calls that follow a completed search. *)
Definition remember (cacheKey : string) (outcome : option CineMeta)
    (w : World) : World :=
  match outcome with
  | Some bestMatch =>
      set_cinemetaCache (<[cm_id bestMatch := bestMatch]> (cinemetaCache w))
        (set_searchCache (<[cacheKey := Some bestMatch]> (searchCache w)) w)
  | None => set_searchCache (<[cacheKey := None]> (searchCache w)) w
  end.

(** The entry points of the engine, to speak of what the process does
    between two calls. *)
Inductive Call : Type :=
| CallSearch (title : string) (type : MediaType) (year : option Z)
| CallRefresh
| CallCatalog (catalogType : MediaType)
| CallStream (type id : string).

Section Calls.

Variable TORBOX_API_KEY : option string.
Variable ptt_parse : string -> result PttResult.
Variable Date_parse : string -> Date.
Variable net : nat -> string -> Response.

(** The world after one call. *)
Definition perform (c : Call) (w : World) : World :=
  match c with
  | CallSearch title type year => snd (searchCinemeta net title type year w)
  | CallRefresh => snd (getTorboxTorrents TORBOX_API_KEY net w)
  | CallCatalog catalogType =>
      snd (handleMediaCatalog TORBOX_API_KEY ptt_parse Date_parse net
             catalogType w)
  | CallStream type id =>
      snd (streamHandler TORBOX_API_KEY ptt_parse net type id w)
  end.

Definition performAll (cs : list Call) (w : World) : World :=
  fold_left (fun w c => perform c w) cs w.

End Calls.

Section RecencyKey.

Variable Date_parse : string -> Date.

(** The instant an entry is ranked by, when it has one. *)
Definition sortKey (t : Torrent) : Z :=
  default 0%Z (getTime (sortDate Date_parse t)).

Definition validKey (t : Torrent) : Prop :=
  getTime (sortDate Date_parse t) <> None.

Definition newerFirst (a b : Torrent) : Prop := (sortKey b <= sortKey a)%Z.

End RecencyKey.

(** The link requests one entry gives rise to, in the order they are
    issued: one per video file when the entry lists files, one for the entry
    alone otherwise; none at all without an API key, the call throwing
    before it fetches. *)
Definition linkRequests (TORBOX_API_KEY : option string) (t : Torrent)
    : list string :=
  if truthyS TORBOX_API_KEY then
    match t_files t with
    | Some (file :: rest) =>
        map (fun f => requestdlUrl TORBOX_API_KEY (t_id t) (Some (f_id f)))
          (List.filter isVideo (file :: rest))
    | _ => [requestdlUrl TORBOX_API_KEY (t_id t) None]
    end
  else [].

(** The ids of a listing, in listing order. *)
Definition ids (metas : list CatalogMeta) : list string := map m_id metas.

(** How many entries of a listing carry the id [x]. *)
Definition occurrences (x : string) (metas : list CatalogMeta) : nat :=
  length (List.filter (fun m => m_id m =? x) metas).

(** The loop state is coherent: [seenImdb] holds exactly the ids emitted
    so far, and none of them twice. *)
Definition coherent (st : list CatalogMeta * gset string) : Prop :=
  NoDup (ids (fst st)) /\ forall x, x ∈ snd st <-> In x (ids (fst st)).

(** What an emitted entry says of the inventory entry it came from: it
    carries the requested kind, the entry's id and name, and the name parsed
    to that kind. *)
Definition emittedFrom (ptt_parse : string -> result PttResult)
    (catalogType : MediaType) (torrent : Torrent) (m : CatalogMeta) : Prop :=
  m_type m = catalogType
  /\ m_torboxId m = t_id torrent
  /\ m_torrentName m = entryName torrent
  /\ exists d,
       parseTorrentName ptt_parse (entryName torrent) = Ok d
       /\ type d = catalogType.

(** Every world a computation ends in is [R]-related to the one it
    started from. *)
Definition preserves {A : Type} (R : World -> World -> Prop) (m : M A)
    : Prop :=
  forall w, R w (snd (m w)).

(** The search cache of [w'] still holds every entry of [w]. *)
Definition search_extends (w w' : World) : Prop :=
  forall k v, searchCache w !! k = Some v -> searchCache w' !! k = Some v.

(** ** The lookup by id *)

(** What the by-id endpoint of the metadata catalog answers: the failure
    cases of [Response], and the [meta] field of a parsed body. *)
Inductive MetaReply : Type :=
| MetaFail
| MetaErr (status : Z)
| MetaOk (meta : option CineMeta).

Definition metaUrl (type : MediaType) (imdbId : string) : string :=
  CINEMETA_URL +:+ "/meta/" +:+ type_str type +:+ "/" +:+ imdbId +:+ ".json".

Section ById.

(** The by-id endpoint: the answer to the [n]-th request of the process
    when it asks for [url]. *)
Variable net_meta : nat -> string -> MetaReply.

Definition getCinemetaMeta (type : MediaType) (imdbId : string)
    : M (option CineMeta) :=
  w <- get_world ;;
  match cinemetaCache w !! imdbId with
  | Some cached => ret (Some cached)
  | None =>
      try_catch
        (fun w =>
           let url := metaUrl type imdbId in
           let w1 := log_request url w in
           match net_meta (length (netLog w)) url with
           | MetaFail => (Throw "request failed", w1)
           | MetaErr status => (Ok None, w1)
           | MetaOk (Some meta) =>
               (Ok (Some meta),
                set_cinemetaCache (<[imdbId := meta]> (cinemetaCache w1)) w1)
           | MetaOk None => (Ok None, w1)
           end)
        (fun _ => ret None)
  end.

End ById.

(** ** Vocabulary of the further properties *)

(** Every key of the inventory cache is [String(t.id)] of the entry it
    holds. *)
Definition cacheKeyed (c : list (string * Torrent)) : Prop :=
  Forall (fun kt => fst kt = String_ (t_id (snd kt))) c.

(** Word characters and single spaces: [after_space] says a space may
    not come next. *)
Fixpoint single_spaced (after_space : bool) (s : string) : bool :=
  match s with
  | EmptyString => true
  | String c r =>
      if is_word c then single_spaced false r
      else Ascii.eqb c " " && negb after_space && single_spaced true r
  end.

Fixpoint ends_space (s : string) : bool :=
  match s with
  | EmptyString => false
  | String c EmptyString => Ascii.eqb c " "
  | String _ r => ends_space r
  end.

(** The string with [%20] in the place of every space. *)
Fixpoint escape_spaces (s : string) : string :=
  match s with
  | EmptyString => EmptyString
  | String c r =>
      if Ascii.eqb c " " then "%20" +:+ escape_spaces r
      else String c (escape_spaces r)
  end.

Fixpoint has_colon (s : string) : bool :=
  match s with
  | EmptyString => false
  | String c r => Ascii.eqb c ":" || has_colon r
  end.

(** The stream object pushed for a file. *)
Definition fileStream (file : TFile) (url : option string) : Stream :=
  {| s_name := "⚡ Torbox"; s_title := streamTitle (f_name file); s_url := url |}.


(** Further sample data. *)
Module Samples.

Definition show : Torrent :=
  Fixtures.raw 7 "Show.S01" JUndef JUndef
    (Some [mkFile 3 "Show.S01E01.mkv"; mkFile 4 "notes.txt";
           mkFile 5 "Show.S01E02.MP4"]).

(** Link requests succeed, except the second request of the process. *)
Definition net_flaky (n : nat) (url : string) : Response :=
  if (n =? 1)%nat then HttpErr 503
  else HttpOk (BLink (Some ("https://cdn.example/" +:+ String_ (Z.of_nat n)))).

Definition y2019 : CineMeta :=
  mkCineMeta "tt0000019" "Movie Name" None None None (Some "2019") None JUndef.

Definition y2021 : CineMeta :=
  mkCineMeta "tt0000021" "Movie Name" None None None None None (JNum 2021).

Definition search_two (n : nat) (url : string) : Response :=
  HttpOk (BSearch (Some [y2019; y2021])).

Definition meta_found (n : nat) (url : string) : MetaReply :=
  MetaOk (Some y2021).

Definition meta_down (n : nat) (url : string) : MetaReply := MetaErr 500.

Definition w_cached : World :=
  mkWorld [("7", show)] ∅ ∅ [].

End Samples.

(** ** Properties *)

Set Default Proof Using "Type".

(** *** The name parser wrapper *)

Section NameParser.

Variable ptt_parse : string -> result PttResult.

Lemma truthyS_nonempty (o : option string) :
  truthyS o = true -> default "" o <> "".
Proof.
  destruct o as [s|]; simpl; [|discriminate].
  destruct (String.eqb_spec s ""); simpl; congruence.
Qed.

Lemma orNullZ_None (o : option Z) : orNullZ o = None <-> truthyZ o = false.
Proof.
  unfold orNullZ. destruct (truthyZ o) eqn:E; split; try congruence.
  destruct o; simpl in *; congruence.
Qed.

(** C7, as amended.  Whenever the parsing library returns, so does
    [parseTorrentName]: the title is the library's title when that is
    non-empty and the raw name otherwise, hence non-empty for every
    non-empty name; the kind is series exactly when the descriptor has a
    season or an episode, movie otherwise.  The wrapper raises nothing of
    its own: it throws only what the library throws. *)
Theorem parseTorrentName_descriptor (name : string) :
  (forall e, ptt_parse name = Throw e ->
             parseTorrentName ptt_parse name = Throw e)
  /\ (forall r, ptt_parse name = Ok r ->
        exists d, parseTorrentName ptt_parse name = Ok d
          /\ title d = (if truthyS (ptt_title r)
                        then default "" (ptt_title r) else name)
          /\ (name <> "" -> title d <> "")
          /\ (type d = series <-> season d <> None \/ episode d <> None)
          /\ (type d = movie <-> season d = None /\ episode d = None)).
Proof.
  unfold parseTorrentName. split.
  - intros e ->. reflexivity.
  - intros r ->. eexists. split; [reflexivity|]. simpl.
    split; [reflexivity|]. split.
    + intros Hname. destruct (truthyS (ptt_title r)) eqn:E; [|exact Hname].
      now apply truthyS_nonempty.
    + rewrite !orNullZ_None.
      destruct (truthyZ (ptt_season r)) eqn:Es, (truthyZ (ptt_episode r)) eqn:Ee;
        simpl; unfold orNullZ; rewrite ?Es, ?Ee;
        destruct (ptt_season r), (ptt_episode r); simpl in *;
        intuition congruence.
Qed.

(** On the empty name a title can only come from the library: when the
    library offers none, or the empty one, the title is empty. *)
Lemma parseTorrentName_empty_name (r : PttResult) :
  ptt_parse "" = Ok r -> truthyS (ptt_title r) = false ->
  exists d, parseTorrentName ptt_parse "" = Ok d /\ title d = "".
Proof.
  intros Hr Ht. unfold parseTorrentName. rewrite Hr. eexists.
  split; [reflexivity|]. simpl. now rewrite Ht.
Qed.

End NameParser.

(** C7 as stated fails on the empty name: the library has no title to
    offer, the fallback is the name itself, and the title comes out
    empty. *)
Lemma parseTorrentName_empty_title :
  exists d, parseTorrentName Fixtures.ptt_plain "" = Ok d /\ title d = "".
Proof. eexists. split; reflexivity. Qed.

Lemma parseTorrentName_descriptor_witness :
  exists d, parseTorrentName Fixtures.ptt_plain "Movie.Name.2021" = Ok d
    /\ title d = "Movie.Name.2021"
    /\ ("Movie.Name.2021" <> "" -> title d <> "")
    /\ (type d = series <-> season d <> None \/ episode d <> None)
    /\ (type d = movie <-> season d = None /\ episode d = None).
Proof.
  exact (proj2 (parseTorrentName_descriptor Fixtures.ptt_plain "Movie.Name.2021")
           _ eq_refl).
Defined.

(** *** Computations that keep a relation between worlds *)

Section Preserves.

Variable R : World -> World -> Prop.
Hypothesis R_refl : forall w, R w w.
Hypothesis R_trans : forall w1 w2 w3, R w1 w2 -> R w2 w3 -> R w1 w3.

Lemma preserves_ret {A} (a : A) : preserves R (ret a).
Proof using R_refl. intros w. apply R_refl. Qed.

Lemma preserves_throw {A} (e : string) : preserves R (@throw A e).
Proof using R_refl. intros w. apply R_refl. Qed.

Lemma preserves_lift {A} (r : result A) : preserves R (lift r).
Proof using R_refl. intros w. apply R_refl. Qed.

Lemma preserves_get_world : preserves R get_world.
Proof using R_refl. intros w. apply R_refl. Qed.

Lemma preserves_modify (f : World -> World) :
  (forall w, R w (f w)) -> preserves R (modify f).
Proof. intros H w. apply H. Qed.

Lemma preserves_bind {A B} (m : M A) (k : A -> M B) :
  preserves R m -> (forall a, preserves R (k a)) -> preserves R (bind m k).
Proof using R_refl R_trans.
  intros Hm Hk w. unfold bind. specialize (Hm w).
  destruct (m w) as [[a|e] w1]; simpl in *; [|exact Hm].
  eapply R_trans; [exact Hm|apply Hk].
Qed.

Lemma preserves_try_catch {A} (m : M A) (h : string -> M A) :
  preserves R m -> (forall e, preserves R (h e)) ->
  preserves R (try_catch m h).
Proof using R_refl R_trans.
  intros Hm Hh w. unfold try_catch. specialize (Hm w).
  destruct (m w) as [[a|e] w1]; simpl in *; [exact Hm|].
  eapply R_trans; [exact Hm|apply Hh].
Qed.

End Preserves.

(** *** The metadata search and its cache *)

Lemma search_extends_refl (w : World) : search_extends w w.
Proof. intros k v H. exact H. Qed.

Lemma search_extends_trans (w1 w2 w3 : World) :
  search_extends w1 w2 -> search_extends w2 w3 -> search_extends w1 w3.
Proof. intros H12 H23 k v H. apply H23, H12, H. Qed.

Lemma search_extends_same (w w' : World) :
  searchCache w' = searchCache w -> search_extends w w'.
Proof. intros E k v H. rewrite E. exact H. Qed.

Lemma search_extends_remember (k : string) (o : option CineMeta) (w : World) :
  searchCache w !! k = None -> search_extends w (remember k o w).
Proof.
  intros Hk k' v H. assert (k <> k') by congruence.
  destruct o; simpl; rewrite lookup_insert_ne; auto.
Qed.

Ltac preserves_step R_refl R_trans :=
  first
    [ apply (preserves_ret _ R_refl)
    | apply (preserves_throw _ R_refl)
    | apply (preserves_lift _ R_refl)
    | apply (preserves_get_world _ R_refl)
    | apply (preserves_bind _ R_refl R_trans); [|intros ?]
    | apply (preserves_try_catch _ R_refl R_trans); [|intros ?] ].

Section Search.

Variable net : nat -> string -> Response.

(** The whole of [searchCinemeta], case by case. *)
Lemma searchCinemeta_spec (title : string) (type : MediaType)
    (year : option Z) (w : World) :
  searchCinemeta net title type year w =
    match searchCache w !! cacheKey type title year with
    | Some cached => (Ok cached, w)
    | None =>
        let w1 := log_request (searchUrl type title) w in
        match net (length (netLog w)) (searchUrl type title) with
        | HttpOk body =>
            (Ok (searchOutcome year body),
             remember (cacheKey type title year) (searchOutcome year body) w1)
        | _ => (Ok None, w1)
        end
    end.
Proof.
  unfold searchCinemeta, bind, get_world.
  destruct (searchCache w !! cacheKey type title year) as [v|]; [reflexivity|].
  unfold try_catch, bind, fetch.
  destruct (net _ _) as [| status | body]; try reflexivity.
  destruct body as [d | [[|first rest]|] | d |]; reflexivity.
Qed.

Lemma searchCinemeta_returns (title : string) (type : MediaType)
    (year : option Z) (w : World) :
  exists r, fst (searchCinemeta net title type year w) = Ok r.
Proof.
  rewrite searchCinemeta_spec.
  destruct (searchCache w !! _); [eauto|].
  simpl. destruct (net _ _); eauto.
Qed.

Lemma searchCinemeta_extends (title : string) (type : MediaType)
    (year : option Z) :
  preserves search_extends (searchCinemeta net title type year).
Proof.
  intros w. rewrite searchCinemeta_spec.
  destruct (searchCache w !! _) eqn:E; [apply search_extends_refl|].
  simpl. destruct (net _ _); simpl;
    try (apply search_extends_same; reflexivity).
  apply (search_extends_trans _ (log_request (searchUrl type title) w)).
  - apply search_extends_same. reflexivity.
  - apply search_extends_remember. exact E.
Qed.

Lemma searchCinemeta_torrentsCache (title : string) (type : MediaType)
    (year : option Z) (w : World) :
  torrentsCache (snd (searchCinemeta net title type year w))
  = torrentsCache w.
Proof.
  rewrite searchCinemeta_spec.
  destruct (searchCache w !! _); [reflexivity|].
  simpl. destruct (net _ _) as [| status | body]; try reflexivity.
  simpl. destruct (searchOutcome year body); reflexivity.
Qed.

(** C10.  When the search is not yet cached and the request ends in a
    transport error or a non-success status, [searchCinemeta] returns
    absence and stores nothing: both metadata caches are as before, only
    the request has been issued.  A later identical call, made while the
    key is still absent (as it is right after the failure), therefore
    issues the request again.  Conversely a key
    enters the search cache only through a completed response. *)
Theorem searchCinemeta_failure_not_cached (title : string)
    (type : MediaType) (year : option Z) (w : World) :
  searchCache w !! cacheKey type title year = None ->
  (net (length (netLog w)) (searchUrl type title) = NetFail
   \/ exists status,
        net (length (netLog w)) (searchUrl type title) = HttpErr status) ->
  let w1 := snd (searchCinemeta net title type year w) in
  fst (searchCinemeta net title type year w) = Ok None
  /\ searchCache w1 = searchCache w
  /\ cinemetaCache w1 = cinemetaCache w
  /\ netLog w1 = (netLog w ++ [searchUrl type title])%list
  /\ (forall w2, searchCache w2 !! cacheKey type title year = None ->
        netLog (snd (searchCinemeta net title type year w2))
        = (netLog w2 ++ [searchUrl type title])%list)
  /\ (forall w', searchCache w' !! cacheKey type title year = None ->
        searchCache (snd (searchCinemeta net title type year w'))
          !! cacheKey type title year <> None ->
        exists body,
          net (length (netLog w')) (searchUrl type title) = HttpOk body).
Proof.
  intros Hmiss Hfail.
  assert (E : searchCinemeta net title type year w
              = (Ok None, log_request (searchUrl type title) w)).
  { rewrite searchCinemeta_spec, Hmiss. simpl.
    destruct Hfail as [-> | [status ->]]; reflexivity. }
  rewrite E. clear E Hfail. simpl. repeat split; try reflexivity.
  - intros w2 Hmiss2. rewrite searchCinemeta_spec, Hmiss2. simpl.
    destruct (net _ _) as [| status | body]; try reflexivity.
    simpl. destruct (searchOutcome year body); reflexivity.
  - intros w' Hmiss' Hnow. rewrite searchCinemeta_spec, Hmiss' in Hnow.
    simpl in Hnow. destruct (net _ _) as [| status | body]; eauto;
      simpl in Hnow; congruence.
Qed.

End Search.

(** *** What the engine leaves in the search cache *)

Create HintDb extends discriminated.

Ltac extends_tac :=
  repeat
    first
      [ solve [auto with extends nocore]
      | preserves_step search_extends_refl search_extends_trans
      | apply preserves_modify; intros ?; apply search_extends_same;
        reflexivity
      | match goal with
        | |- preserves _ (match ?x with _ => _ end) => destruct x
        | |- preserves _ (if ?b then _ else _) => destruct b
        end ].

Section Frame.

Variable TORBOX_API_KEY : option string.
Variable ptt_parse : string -> result PttResult.
Variable Date_parse : string -> Date.
Variable net : nat -> string -> Response.

Local Hint Resolve searchCinemeta_extends : extends.

Lemma fetch_extends (url : string) : preserves search_extends (fetch net url).
Proof. intros w. apply search_extends_same. reflexivity. Qed.

Local Hint Resolve fetch_extends : extends.

Lemma getTorboxTorrents_extends :
  preserves search_extends (getTorboxTorrents TORBOX_API_KEY net).
Proof. unfold getTorboxTorrents. extends_tac. Qed.

Lemma getTorboxStreamLink_extends (torrentId : Z) (fileId : option Z) :
  preserves search_extends
    (getTorboxStreamLink TORBOX_API_KEY net torrentId fileId).
Proof. unfold getTorboxStreamLink. extends_tac. Qed.

Local Hint Resolve getTorboxTorrents_extends getTorboxStreamLink_extends
  : extends.

Lemma catalogEntry_extends (catalogType : MediaType) (torrent : Torrent)
    (st : list CatalogMeta * gset string) :
  preserves search_extends (catalogEntry ptt_parse net catalogType torrent st).
Proof. unfold catalogEntry. destruct st as [metas seenImdb]. extends_tac. Qed.

Local Hint Resolve catalogEntry_extends : extends.

Lemma catalogLoop_extends (catalogType : MediaType) (sorted : list Torrent) :
  forall st,
    preserves search_extends (catalogLoop ptt_parse net catalogType sorted st).
Proof.
  induction sorted as [|torrent rest IH]; intros st; simpl; extends_tac.
Qed.

Local Hint Resolve catalogLoop_extends : extends.

Lemma handleMediaCatalog_extends (catalogType : MediaType) :
  preserves search_extends
    (handleMediaCatalog TORBOX_API_KEY ptt_parse Date_parse net catalogType).
Proof. unfold handleMediaCatalog. extends_tac. Qed.

Lemma streamsForFiles_extends (torrent : Torrent) (files : list TFile) :
  forall streams,
    preserves search_extends
      (streamsForFiles TORBOX_API_KEY net torrent files streams).
Proof.
  induction files as [|file rest IH]; intros streams; simpl; extends_tac.
Qed.

Local Hint Resolve streamsForFiles_extends : extends.

Lemma generateStreamsForTorrent_extends (torrent : Torrent) :
  preserves search_extends
    (generateStreamsForTorrent TORBOX_API_KEY net torrent).
Proof. unfold generateStreamsForTorrent. extends_tac. Qed.

Lemma scanResolve_extends (id : string) (entries : list (string * Torrent)) :
  preserves search_extends (scanResolve ptt_parse net id entries).
Proof.
  induction entries as [|[k t] rest IH]; simpl; extends_tac.
Qed.

Local Hint Resolve generateStreamsForTorrent_extends scanResolve_extends
  : extends.

Lemma locateTorrent_extends (id : string) :
  preserves search_extends (locateTorrent TORBOX_API_KEY ptt_parse net id).
Proof. unfold locateTorrent. extends_tac. Qed.

Local Hint Resolve locateTorrent_extends : extends.

Lemma streamHandler_extends (type id : string) :
  preserves search_extends
    (streamHandler TORBOX_API_KEY ptt_parse net type id).
Proof. unfold streamHandler. extends_tac. Qed.

Lemma perform_extends (c : Call) (w : World) :
  search_extends w (perform TORBOX_API_KEY ptt_parse Date_parse net c w).
Proof.
  destruct c; simpl.
  - apply searchCinemeta_extends.
  - apply getTorboxTorrents_extends.
  - apply handleMediaCatalog_extends.
  - apply streamHandler_extends.
Qed.

Lemma performAll_extends (cs : list Call) :
  forall w,
    search_extends w
      (performAll TORBOX_API_KEY ptt_parse Date_parse net cs w).
Proof.
  induction cs as [|c cs IH]; intros w; simpl.
  - apply search_extends_refl.
  - eapply search_extends_trans; [apply perform_extends | apply IH].
Qed.

(** C5, as amended.  Take a search whose key is not cached yet and whose
    request completes with a response of the search service, be it a found
    record or an empty result.  That call issues exactly one request and
    stores its result under the key of the triple; from then on, whatever
    calls the engine serves in between, an identical call returns the
    stored result and leaves the world, and so the request log, as it found
    it. *)
Theorem searchCinemeta_completed_call_cached (title : string) (type : MediaType)
    (year : option Z) (w : World) (body : Body) :
  searchCache w !! cacheKey type title year = None ->
  net (length (netLog w)) (searchUrl type title) = HttpOk body ->
  let result := searchOutcome year body in
  let w1 := snd (searchCinemeta net title type year w) in
  fst (searchCinemeta net title type year w) = Ok result
  /\ netLog w1 = (netLog w ++ [searchUrl type title])%list
  /\ searchCache w1 !! cacheKey type title year = Some result
  /\ forall (cs : list Call),
       let w2 := performAll TORBOX_API_KEY ptt_parse Date_parse net cs w1 in
       searchCinemeta net title type year w2 = (Ok result, w2).
Proof.
  intros Hmiss Hresp. simpl.
  assert (E : searchCinemeta net title type year w
              = (Ok (searchOutcome year body),
                 remember (cacheKey type title year) (searchOutcome year body)
                   (log_request (searchUrl type title) w))).
  { rewrite searchCinemeta_spec, Hmiss. simpl. rewrite Hresp. reflexivity. }
  rewrite E. simpl.
  assert (Hin : searchCache
                  (remember (cacheKey type title year)
                     (searchOutcome year body)
                     (log_request (searchUrl type title) w))
                !! cacheKey type title year
                = Some (searchOutcome year body)).
  { destruct (searchOutcome year body); simpl; apply lookup_insert_eq. }
  repeat split.
  - destruct (searchOutcome year body); reflexivity.
  - exact Hin.
  - intros cs. rewrite searchCinemeta_spec.
    rewrite (performAll_extends cs _ _ _ Hin). reflexivity.
Qed.

End Frame.

Lemma searchCinemeta_failure_not_cached_witness :
  searchCache Fixtures.w0 !! cacheKey movie "Movie Name" (Some 2021%Z) = None
  /\ fst (searchCinemeta Fixtures.search_down "Movie Name" movie (Some 2021%Z)
            Fixtures.w0) = Ok None.
Proof.
  split; [reflexivity|].
  apply (searchCinemeta_failure_not_cached Fixtures.search_down);
    [reflexivity | right; exists 500%Z; reflexivity].
Defined.

(** C5 as stated fails when the request fails: the first call returns
    absence and caches nothing, and the identical second call issues the
    same request once more. *)
Lemma searchCinemeta_failed_call_repeats :
  let call := searchCinemeta Fixtures.search_down "Movie Name" movie
                (Some 2021%Z) in
  let url := searchUrl movie "Movie Name" in
  fst (call Fixtures.w0) = Ok None
  /\ searchCache (snd (call Fixtures.w0))
       !! cacheKey movie "Movie Name" (Some 2021%Z) = None
  /\ netLog (snd (call Fixtures.w0)) = [url]
  /\ fst (call (snd (call Fixtures.w0))) = Ok None
  /\ netLog (snd (call (snd (call Fixtures.w0)))) = [url; url].
Proof. vm_compute. repeat split; reflexivity. Qed.

Lemma searchCinemeta_completed_call_cached_witness :
  searchCache Fixtures.w0 !! cacheKey movie "Movie Name" (Some 2021%Z) = None
  /\ fst (searchCinemeta (Fixtures.search_all (Fixtures.cine "tt1" "Movie Name"))
            "Movie Name" movie (Some 2021%Z) Fixtures.w0)
     = Ok (Some (Fixtures.cine "tt1" "Movie Name")).
Proof.
  split; [reflexivity|].
  apply (searchCinemeta_completed_call_cached Fixtures.key Fixtures.ptt_plain
           Date_parse_iso
           (Fixtures.search_all (Fixtures.cine "tt1" "Movie Name"))
           "Movie Name" movie (Some 2021%Z) Fixtures.w0
           (BSearch (Some [Fixtures.cine "tt1" "Movie Name"])));
    reflexivity.
Defined.

(** *** The inventory cache *)

Lemma String__inj (n m : Z) : String_ n = String_ m -> n = m.
Proof.
  unfold String_. intros E.
  assert (Hnn : forall z, Z.to_int z <> Decimal.Pos Decimal.Nil
                          /\ Z.to_int z <> Decimal.Neg Decimal.Nil).
  { intros z. split; intros H; pose proof (DecimalZ.of_to z) as Hz;
      rewrite H in Hz; simpl in Hz; subst z; discriminate H. }
  apply (f_equal NilZero.int_of_string) in E.
  rewrite !NilZero.isi in E by apply Hnn.
  injection E as E. now apply DecimalZ.to_int_inj.
Qed.

Lemma find_app_first {A} (f : A -> bool) (l1 l2 : list A) :
  find f (l1 ++ l2)
  = match find f l1 with Some a => Some a | None => find f l2 end.
Proof.
  induction l1 as [|a l1 IH]; simpl; [reflexivity|].
  destruct (f a); [reflexivity | exact IH].
Qed.

Lemma map_get_set_eq {V} (k : string) (v : V) (m : list (string * V)) :
  map_get k (map_set k v m) = Some v.
Proof.
  induction m as [|[k' v'] r IH]; simpl.
  - now rewrite String.eqb_refl.
  - destruct (String.eqb k' k) eqn:E; simpl.
    + now rewrite String.eqb_refl.
    + now rewrite E.
Qed.

Lemma map_get_set_ne {V} (k k' : string) (v : V) (m : list (string * V)) :
  k <> k' -> map_get k' (map_set k v m) = map_get k' m.
Proof.
  intros Hne. induction m as [|[k0 v0] r IH]; simpl.
  - destruct (String.eqb_spec k k'); congruence.
  - destruct (String.eqb_spec k0 k) as [->|Hk]; simpl.
    + destruct (String.eqb_spec k k'); congruence.
    + destruct (String.eqb_spec k0 k'); congruence.
Qed.

(** What the [forEach] of a refresh leaves under a key: the last listed
    object with that key, the earlier content when none is listed. *)
Lemma refresh_lookup (k : string) (l : list Torrent) :
  forall c,
    map_get k (fold_left (fun c t => map_set (String_ (t_id t)) t c) l c)
    = match find (fun t => String_ (t_id t) =? k) (rev l) with
      | Some t => Some t
      | None => map_get k c
      end.
Proof.
  induction l as [|t l IH]; intros c; simpl; [reflexivity|].
  rewrite IH, find_app_first.
  destruct (find _ (rev l)); [reflexivity|]. simpl.
  destruct (String.eqb_spec (String_ (t_id t)) k) as [<-|Hne].
  - apply map_get_set_eq.
  - now apply map_get_set_ne.
Qed.

Section Inventory.

Variable TORBOX_API_KEY : option string.
Variable net : nat -> string -> Response.

(** X20.  A successful refresh stores, for every listed id, one of the
    listed objects as it was listed: nothing of the object held before
    under that key is carried over. *)
Lemma getTorboxTorrents_overwrites (w : World) (l : list Torrent)
    (t : Torrent) :
  truthyS TORBOX_API_KEY = true ->
  net (length (netLog w)) mylistUrl = HttpOk (BList (Some l)) ->
  In t l ->
  exists t',
    In t' l /\ t_id t' = t_id t
    /\ map_get (String_ (t_id t))
         (torrentsCache (snd (getTorboxTorrents TORBOX_API_KEY net w)))
       = Some t'.
Proof.
  intros Hkey Hnet Hin. unfold getTorboxTorrents. rewrite Hkey. simpl.
  unfold bind, fetch. rewrite Hnet. simpl.
  rewrite refresh_lookup.
  destruct (find _ (rev l)) as [t'|] eqn:E.
  - apply find_some in E. destruct E as [Hin' E].
    apply String.eqb_eq, String__inj in E.
    exists t'. split; [|split]; auto. now apply in_rev.
  - exfalso. apply in_rev in Hin.
    pose proof (find_none _ _ E t Hin) as Hf. simpl in Hf.
    now rewrite String.eqb_refl in Hf.
Qed.

End Inventory.

(** C1 fails on the code.  A catalog pass annotates the entry with id 1;
    the next inventory refresh lists id 1 again and the cache then holds
    the listed object, without [_imdbId] and without [_parsed]. *)
Theorem refresh_drops_annotations :
  let run := performAll Fixtures.key Fixtures.ptt_plain Date_parse_iso
               Fixtures.net_one in
  let entry w := map_get "1" (torrentsCache w) in
  t_imdbId <$> entry (run [CallCatalog movie] Fixtures.w0)
    = Some (Some "tt0000001")
  /\ t_parsed <$> entry (run [CallCatalog movie] Fixtures.w0)
    = Some (Some (Fixtures.d_plain "Movie Name 2021"))
  /\ t_imdbId <$> entry (run [CallCatalog movie; CallRefresh] Fixtures.w0)
    = Some None
  /\ t_parsed <$> entry (run [CallCatalog movie; CallRefresh] Fixtures.w0)
    = Some None.
Proof. vm_compute. repeat split; reflexivity. Qed.

(** *** The recency order of the catalog *)

(** C2 fails on the code.  The newer entry has an [updated_at] that is
    no date: [parseDate] still hands back a [Date] object, which is truthy,
    so [created_at] is never consulted and the key is [NaN]; the comparison
    with it is [NaN] and the newer entry stays behind the older one. *)
Theorem sortDate_unparsable_no_fallback :
  parseDate Date_parse_iso (t_updated_at Fixtures.newer) = Some None
  /\ parseDate Date_parse_iso (t_created_at Fixtures.newer)
     = Some (Some 1700000000000%Z)
  /\ getTime (sortDate Date_parse_iso Fixtures.newer) = None
  /\ getTime (sortDate Date_parse_iso Fixtures.older) = Some 1600000000000%Z
  /\ sort (compareTorrents Date_parse_iso) [Fixtures.older; Fixtures.newer]
     = [Fixtures.older; Fixtures.newer].
Proof. vm_compute. repeat split; reflexivity. Qed.

Section Recency.

Variable Date_parse : string -> Date.

(** The three-way rule on a value that is present. *)
Lemma parseDate_rule (v : jsval) :
  parseDate Date_parse v =
    match v with
    | JUndef => None
    | JNum n =>
        if (n =? 0)%Z then None
        else if (10 ^ 12 <? n)%Z then Some (Date_of_number n)
             else Some (Date_of_number (n * 1000))
    | JStr s => if s =? "" then None else Some (Date_parse s)
    end.
Proof.
  unfold parseDate. destruct v as [|n|s]; simpl; [reflexivity| |].
  - destruct (n =? 0)%Z; reflexivity.
  - destruct (s =? ""); reflexivity.
Qed.

(** The fallback chain over values that are absent. *)
Lemma sortDate_fallback (t : Torrent) :
  sortDate Date_parse t =
    match parseDate Date_parse (t_updated_at t) with
    | Some d => d
    | None =>
        match parseDate Date_parse (t_created_at t) with
        | Some d => d
        | None => Some 0%Z
        end
    end.
Proof. reflexivity. Qed.

Lemma sort_insert_perm {A} (cmp : A -> A -> option Z) (x : A) (l : list A) :
  Permutation (sort_insert cmp x l) (x :: l).
Proof.
  induction l as [|y r IH]; simpl; [reflexivity|].
  destruct (_ <=? _)%Z; [reflexivity|].
  rewrite IH. apply perm_swap.
Qed.

Lemma sort_perm {A} (cmp : A -> A -> option Z) (l : list A) :
  Permutation (sort cmp l) l.
Proof.
  induction l as [|x l IH]; simpl; [reflexivity|].
  rewrite sort_insert_perm. now constructor.
Qed.

Local Abbreviation key := (sortKey Date_parse).
Local Abbreviation valid := (validKey Date_parse).
Local Abbreviation newer_first := (newerFirst Date_parse).
Local Abbreviation compare := (compareTorrents Date_parse).

Lemma compare_valid (a b : Torrent) :
  valid a -> valid b -> compare a b = Some (key b - key a)%Z.
Proof.
  unfold validKey, compareTorrents, sortKey. intros Ha Hb.
  destruct (getTime (sortDate Date_parse a)),
           (getTime (sortDate Date_parse b)); simpl; congruence.
Qed.

Lemma sort_insert_sorted (x : Torrent) (l : list Torrent) :
  valid x -> Forall valid l ->
  StronglySorted newer_first l ->
  StronglySorted newer_first (sort_insert compare x l).
Proof.
  intros Hx Hl Hs. induction Hs as [|y r Hr IH Hy]; simpl.
  - repeat constructor.
  - inversion Hl as [|? ? Hvy Hvr]; subst.
    rewrite (compare_valid x y Hx Hvy). simpl.
    destruct (Z.leb_spec (key y - key x) 0) as [Hle|Hgt].
    + constructor; [now constructor|].
      constructor; [unfold newerFirst; lia|].
      eapply Forall_impl; [exact Hy|].
      unfold newerFirst. intros; lia.
    + constructor; [now apply IH|].
      eapply Permutation_Forall;
        [symmetry; apply sort_insert_perm|].
      constructor; [unfold newerFirst; lia | exact Hy].
Qed.

(** X21.  When every entry has a valid key, the sort lists the entries,
    all of them, from the newest key to the oldest. *)
Lemma sort_newest_first (l : list Torrent) :
  Forall valid l ->
  Permutation (sort compare l) l
  /\ StronglySorted newer_first (sort compare l).
Proof.
  intros Hl. split; [apply sort_perm|].
  induction Hl as [|x l Hx Hl IH]; simpl; [constructor|].
  apply sort_insert_sorted; auto.
  eapply Permutation_Forall; [symmetry; apply sort_perm | exact Hl].
Qed.

End Recency.

(** *** Link requests *)

Section Links.

Variable TORBOX_API_KEY : option string.
Variable net : nat -> string -> Response.

Lemma getTorboxStreamLink_spec (torrentId : Z) (fileId : option Z)
    (w : World) :
  getTorboxStreamLink TORBOX_API_KEY net torrentId fileId w =
    if truthyS TORBOX_API_KEY then
      let url := requestdlUrl TORBOX_API_KEY torrentId fileId in
      (match net (length (netLog w)) url with
       | NetFail => Throw "request failed"
       | HttpErr status => Throw ("Erreur API Torbox: " +:+ String_ status)
       | HttpOk body => Ok (match body with BLink data => data | _ => None end)
       end, log_request url w)
    else (Throw "TORBOX_API_KEY non configurée", w).
Proof.
  unfold getTorboxStreamLink.
  destruct (truthyS TORBOX_API_KEY); simpl; [|reflexivity].
  unfold bind, fetch. destruct (net _ _); reflexivity.
Qed.

(** A file whose id is 0 is asked for with the URL of the entry alone. *)
Lemma requestdlUrl_file_zero (torrentId : Z) :
  requestdlUrl TORBOX_API_KEY torrentId (Some 0%Z)
  = requestdlUrl TORBOX_API_KEY torrentId None.
Proof. reflexivity. Qed.

Lemma requestdlUrl_file_nonzero (torrentId fileId : Z) :
  fileId <> 0%Z ->
  requestdlUrl TORBOX_API_KEY torrentId (Some fileId)
  = requestdlUrl TORBOX_API_KEY torrentId None
    +:+ "&file_id=" +:+ String_ fileId.
Proof.
  intros Hne. unfold requestdlUrl. simpl.
  destruct (Z.eqb_spec fileId 0); [contradiction|]. reflexivity.
Qed.

(** The file loop returns, leaves [torrentsCache] alone and issues one
    request per video file, in file order. *)
Lemma streamsForFiles_requests (torrent : Torrent) (files : list TFile) :
  forall streams w,
    (exists out,
       fst (streamsForFiles TORBOX_API_KEY net torrent files streams w)
       = Ok out)
    /\ torrentsCache
         (snd (streamsForFiles TORBOX_API_KEY net torrent files streams w))
       = torrentsCache w
    /\ netLog
         (snd (streamsForFiles TORBOX_API_KEY net torrent files streams w))
       = (netLog w ++
          if truthyS TORBOX_API_KEY then
            map (fun f =>
                   requestdlUrl TORBOX_API_KEY (t_id torrent) (Some (f_id f)))
              (List.filter isVideo files)
          else [])%list.
Proof.
  induction files as [|file rest IH]; intros streams w; simpl.
  - repeat split; eauto. destruct (truthyS _); now rewrite app_nil_r.
  - destruct (isVideo file) eqn:Ev; [|apply IH].
    unfold bind at 1 2 3. unfold try_catch, bind.
    rewrite getTorboxStreamLink_spec.
    destruct (truthyS TORBOX_API_KEY) eqn:Ek; simpl.
    + destruct (net _ _); simpl;
        match goal with
        | |- context [streamsForFiles _ _ _ _ ?s ?w1] =>
            destruct (IH s w1) as (Hret & Hc & Hl)
        end;
        rewrite Hc, Hl; simpl; rewrite <- app_assoc;
        repeat split; auto.
    + destruct (IH streams w) as (Hret & Hc & Hl).
      rewrite Hc, Hl. repeat split; auto.
Qed.

(** [generateStreamsForTorrent] returns, leaves [torrentsCache] alone,
    and the requests it issues are the link requests of its entry. *)
Lemma generateStreamsForTorrent_requests (t : Torrent) (w : World) :
  (exists out,
     fst (generateStreamsForTorrent TORBOX_API_KEY net t w) = Ok out)
  /\ torrentsCache (snd (generateStreamsForTorrent TORBOX_API_KEY net t w))
     = torrentsCache w
  /\ netLog (snd (generateStreamsForTorrent TORBOX_API_KEY net t w))
     = (netLog w ++ linkRequests TORBOX_API_KEY t)%list.
Proof.
  unfold generateStreamsForTorrent, linkRequests.
  destruct (t_files t) as [[|file rest]|];
    try apply streamsForFiles_requests;
    unfold try_catch, bind; rewrite getTorboxStreamLink_spec;
    (destruct (truthyS TORBOX_API_KEY); simpl;
     [destruct (net _ _); simpl; repeat split; eauto
     |repeat split; eauto; now rewrite app_nil_r]).
Qed.

End Links.

(** C8 fails on the code.  The entry lists two video files, with ids 0
    and 1.  Two link requests go out, but the one for file 0 carries the
    entry id only: it is the very request made for an entry without a file
    list. *)
Theorem link_request_omits_file_zero :
  let t := Fixtures.raw 7 "Show.S01" JUndef JUndef
             (Some [mkFile 0 "Show.S01E01.mkv"; mkFile 1 "Show.S01E02.MKV"]) in
  netLog (snd (generateStreamsForTorrent Fixtures.key Fixtures.net_one t
                 Fixtures.w0))
  = [ "https://api.torbox.app/v1/api/torrents/requestdl?token=K&torrent_id=7";
      "https://api.torbox.app/v1/api/torrents/requestdl?token=K&torrent_id=7&file_id=1" ]
  /\ requestdlUrl Fixtures.key 7 (Some 0%Z) = requestdlUrl Fixtures.key 7 None.
Proof. vm_compute. split; reflexivity. Qed.

(** *** Catalog assembly *)

Lemma type_eqb_eq (a b : MediaType) : type_eqb a b = true <-> a = b.
Proof. destruct a, b; simpl; split; congruence. Qed.

Lemma occurrences_app (x : string) (l1 l2 : list CatalogMeta) :
  occurrences x (l1 ++ l2) = (occurrences x l1 + occurrences x l2)%nat.
Proof. unfold occurrences. now rewrite List.filter_app, length_app. Qed.

Lemma occurrences_absent (x : string) (l : list CatalogMeta) :
  ~ In x (ids l) -> occurrences x l = 0%nat.
Proof.
  unfold occurrences, ids. induction l as [|m l IH]; simpl; [reflexivity|].
  intros Hn. destruct (String.eqb_spec (m_id m) x) as [E|E].
  - exfalso. apply Hn. now left.
  - apply IH. intros H. apply Hn. now right.
Qed.

Lemma occurrences_NoDup (x : string) (l : list CatalogMeta) :
  NoDup (ids l) -> In x (ids l) -> occurrences x l = 1%nat.
Proof.
  unfold ids. induction l as [|m l IH]; simpl; [contradiction|].
  intros Hnd Hin. apply NoDup_cons in Hnd. destruct Hnd as [Hm Hnd].
  unfold occurrences. simpl.
  destruct (String.eqb_spec (m_id m) x) as [E|E]; simpl.
  - subst x. f_equal. apply occurrences_absent.
    unfold ids. now rewrite <- list_elem_of_In.
  - destruct Hin as [Hin|Hin]; [contradiction|]. now apply IH.
Qed.

Lemma coherent_step (metas : list CatalogMeta) (seenImdb : gset string)
    (m : CatalogMeta) :
  coherent (metas, seenImdb) -> m_id m ∉ seenImdb ->
  coherent ((metas ++ [m])%list, {[ m_id m ]} ∪ seenImdb).
Proof.
  unfold coherent, ids. simpl. intros [Hnd Hseen] Hnew. split.
  - rewrite map_app. simpl. apply NoDup_app. split; [exact Hnd|]. split.
    + intros x Hx Hx'. apply list_elem_of_In in Hx.
      apply Hseen in Hx. apply list_elem_of_In in Hx'.
      destruct Hx' as [<-|[]]. contradiction.
    + repeat constructor. intros H. inversion H.
  - intros x. rewrite map_app, in_app_iff, <- Hseen. simpl.
    rewrite elem_of_union, elem_of_singleton. intuition congruence.
Qed.

Lemma coherent_empty : coherent ([], ∅).
Proof.
  split; simpl; [constructor|]. intros x. set_solver.
Qed.

Section Catalog.

Variable TORBOX_API_KEY : option string.
Variable ptt_parse : string -> result PttResult.
Variable Date_parse : string -> Date.
Variable net : nat -> string -> Response.

Local Abbreviation parse := (parseTorrentName ptt_parse).
Local Abbreviation search := (searchCinemeta net).
Local Abbreviation entry := (catalogEntry ptt_parse net).
Local Abbreviation loop := (catalogLoop ptt_parse net).
Local Abbreviation handle :=
  (handleMediaCatalog TORBOX_API_KEY ptt_parse Date_parse net).

(** One turn of the loop, case by case. *)
Lemma catalogEntry_spec (catalogType : MediaType) (torrent : Torrent)
    (metas : list CatalogMeta) (seenImdb : gset string) (w : World) :
  entry catalogType torrent (metas, seenImdb) w =
    match parse (entryName torrent) with
    | Throw e => (Throw e, w)
    | Ok d =>
        if type_eqb (type d) catalogType then
          let w1 := snd (search (title d) (type d) (year d) w) in
          match fst (search (title d) (type d) (year d) w) with
          | Ok (Some r) =>
              if bool_decide (cm_id r ∈ seenImdb)
              then (Ok (metas, seenImdb), w1)
              else
                (Ok ((metas ++ [cinemetaEntry catalogType torrent d r])%list,
                     {[ cm_id r ]} ∪ seenImdb),
                 if truthyS (t_imdbId torrent) then w1
                 else set_torrentsCache
                        (map_set (String_ (t_id torrent))
                           (annotate torrent (cm_id r) d)
                           (torrentsCache w1)) w1)
          | Ok None =>
              if bool_decide ("tb:" +:+ String_ (t_id torrent) ∈ seenImdb)
              then (Ok (metas, seenImdb), w1)
              else
                (Ok ((metas ++ [fallbackEntry catalogType torrent d])%list,
                     {[ "tb:" +:+ String_ (t_id torrent) ]} ∪ seenImdb), w1)
          | Throw e => (Throw e, w1)
          end
        else (Ok (metas, seenImdb), w)
    end.
Proof.
  unfold catalogEntry, bind, lift.
  destruct (parse (entryName torrent)) as [d|e]; [|reflexivity].
  destruct (type_eqb (type d) catalogType); simpl; [|reflexivity].
  destruct (search (title d) (type d) (year d) w) as [[[r|]|e] w1]; simpl;
    try reflexivity.
  - case_bool_decide; [reflexivity|].
    destruct (truthyS (t_imdbId torrent)); reflexivity.
  - case_bool_decide; reflexivity.
Qed.

(** One turn of the loop leaves the state alone or emits one entry
    under an id not seen before. *)
Lemma catalogEntry_step (catalogType : MediaType) (torrent : Torrent)
    (metas : list CatalogMeta) (seenImdb : gset string) (w w' : World)
    (st' : list CatalogMeta * gset string) :
  entry catalogType torrent (metas, seenImdb) w = (Ok st', w') ->
  st' = (metas, seenImdb)
  \/ exists m,
       st' = ((metas ++ [m])%list, {[ m_id m ]} ∪ seenImdb)
       /\ (m_id m ∉ seenImdb)
       /\ emittedFrom ptt_parse catalogType torrent m.
Proof.
  rewrite catalogEntry_spec.
  destruct (parse (entryName torrent)) as [d|e] eqn:Ep; [|discriminate].
  destruct (type_eqb (type d) catalogType) eqn:Et;
    [|intros [= <- <-]; now left].
  apply type_eqb_eq in Et. cbv zeta.
  destruct (fst (search (title d) (type d) (year d) w)) as [[r|]|e];
    [| |discriminate];
    (case_bool_decide as Hseen; [intros [= <- <-]; now left|]);
    intros [= <- <-]; right;
    match goal with
    | |- context [(metas ++ [?m0])%list] => exists m0
    end;
    (split; [reflexivity|]); (split; [exact Hseen|]); repeat split; eauto.
Qed.

Lemma catalogLoop_cons (catalogType : MediaType) (torrent : Torrent)
    (rest : list Torrent) (st : list CatalogMeta * gset string) :
  loop catalogType (torrent :: rest) st =
    if (20 <=? length (fst st))%nat then ret st
    else bind (entry catalogType torrent st) (loop catalogType rest).
Proof. reflexivity. Qed.

(** The loop stands still once twenty entries are out. *)
Lemma catalogLoop_capped (catalogType : MediaType) (sorted : list Torrent)
    (st : list CatalogMeta * gset string) (w : World) :
  (20 <= length (fst st))%nat -> loop catalogType sorted st w = (Ok st, w).
Proof.
  intros Hcap. destruct sorted as [|torrent rest]; [reflexivity|].
  rewrite catalogLoop_cons.
  destruct (Nat.leb_spec 20 (length (fst st))); [reflexivity | lia].
Qed.

Lemma catalogLoop_app (catalogType : MediaType) (l1 l2 : list Torrent) :
  forall st w,
    loop catalogType (l1 ++ l2) st w =
      match loop catalogType l1 st w with
      | (Ok st1, w1) => loop catalogType l2 st1 w1
      | (Throw e, w1) => (Throw e, w1)
      end.
Proof.
  induction l1 as [|torrent rest IH]; intros st w; [reflexivity|].
  rewrite <- app_comm_cons, !catalogLoop_cons.
  destruct (Nat.leb_spec 20 (length (fst st))) as [Hcap|Hlt].
  - unfold ret. now rewrite catalogLoop_capped.
  - unfold bind.
    destruct (entry catalogType torrent st w) as [[st1|e] w1];
      [apply IH | reflexivity].
Qed.

(** What the loop keeps true from any coherent state of at most twenty
    entries: coherence, the cap, the entries already out, and the origin of
    every entry it adds. *)
Lemma catalogLoop_invariant (catalogType : MediaType)
    (sorted : list Torrent) :
  forall st w st' w',
    loop catalogType sorted st w = (Ok st', w') ->
    coherent st -> (length (fst st) <= 20)%nat ->
    coherent st' /\ (length (fst st') <= 20)%nat
    /\ exists added,
         fst st' = (fst st ++ added)%list
         /\ Forall (fun m => exists torrent,
                      In torrent sorted
                      /\ emittedFrom ptt_parse catalogType torrent m) added.
Proof.
  induction sorted as [|torrent rest IH]; intros st w st' w'.
  - intros [= <- <-] Hc Hl. repeat split; try apply Hc; auto.
    exists []. split; [now rewrite app_nil_r | constructor].
  - rewrite catalogLoop_cons.
    destruct (Nat.leb_spec 20 (length (fst st))) as [Hcap|Hlt].
    + intros [= <- <-] Hc Hl. repeat split; try apply Hc; auto.
      exists []. split; [now rewrite app_nil_r | constructor].
    + unfold bind.
      destruct (entry catalogType torrent st w) as [[st1|e] w1] eqn:Ee;
        [|discriminate].
      intros Hloop Hc Hl. destruct st as [metas seenImdb].
      apply catalogEntry_step in Ee.
      destruct Ee as [-> | (m & -> & Hnew & Hfrom)].
      * destruct (IH _ _ _ _ Hloop Hc Hl) as (Hc' & Hl' & added & E & Hadd).
        repeat split; try apply Hc'; auto.
        exists added. split; [exact E|].
        eapply Forall_impl; [exact Hadd|].
        intros m' (t' & Hin & Hf). exists t'. split; [now right | exact Hf].
      * simpl in *.
        destruct (IH _ _ _ _ Hloop (coherent_step _ _ _ Hc Hnew))
          as (Hc' & Hl' & added & E & Hadd).
        { simpl. rewrite length_app. simpl. lia. }
        repeat split; try apply Hc'; auto.
        exists (m :: added). split.
        -- simpl in E. rewrite E, <- app_assoc. reflexivity.
        -- constructor; [exists torrent; split; [now left | exact Hfrom]|].
           eapply Forall_impl; [exact Hadd|].
           intros m' (t' & Hin & Hf). exists t'.
           split; [now right | exact Hf].
Qed.

(** The handler never throws, and what it returns is either the outcome
    of the loop over the sorted listing or, after a failure, nothing. *)
Lemma handleMediaCatalog_cases (catalogType : MediaType) (w : World) :
  (exists e w', getTorboxTorrents TORBOX_API_KEY net w = (Throw e, w')
                /\ handle catalogType w = (Ok [], w'))
  \/ exists torrents w1,
       getTorboxTorrents TORBOX_API_KEY net w = (Ok torrents, w1)
       /\ ((exists st' w',
              loop catalogType (sort (compareTorrents Date_parse) torrents)
                ([], ∅) w1 = (Ok st', w')
              /\ handle catalogType w = (Ok (fst st'), w'))
           \/ exists e w',
                loop catalogType (sort (compareTorrents Date_parse) torrents)
                  ([], ∅) w1 = (Throw e, w')
                /\ handle catalogType w = (Ok [], w')).
Proof.
  unfold handleMediaCatalog, try_catch, bind.
  destruct (getTorboxTorrents TORBOX_API_KEY net w) as [[torrents|e] w1];
    [right | left; eauto].
  exists torrents, w1. split; [reflexivity|].
  destruct (loop _ _ _ w1) as [[st'|e] w']; [left | right]; eauto.
Qed.

Lemma handleMediaCatalog_returns (catalogType : MediaType) (w : World) :
  exists metas, fst (handle catalogType w) = Ok metas.
Proof.
  destruct (handleMediaCatalog_cases catalogType w)
    as [(e & w' & _ & ->)
       | (torrents & w1 & _ & [(st' & w' & _ & ->) | (e & w' & _ & ->)])];
    eauto.
Qed.

(** Whatever the handler returns came out of the loop over the sorted
    listing, started from the empty state, or is empty. *)
Lemma handleMediaCatalog_listing (catalogType : MediaType) (w : World)
    (P : list CatalogMeta -> Prop) :
  P [] ->
  (forall sorted w1 st' w',
      loop catalogType sorted ([], ∅) w1 = (Ok st', w') -> P (fst st')) ->
  exists metas, fst (handle catalogType w) = Ok metas /\ P metas.
Proof.
  intros Hnil Hloop.
  destruct (handleMediaCatalog_cases catalogType w)
    as [(e & w' & _ & ->)
       | (torrents & w1 & _ & [(st' & w' & E & ->) | (e & w' & _ & ->)])];
    simpl; eauto.
Qed.

(** C6.  The listing a catalog request answers with has at most twenty
    entries, and each of them carries the requested kind and came from an
    entry whose name parses to that kind.  Once the loop over a prefix of
    the sorted listing has twenty entries out, the entries after that
    prefix leave no trace: the result is the same, and so are the caches
    and the request log, whatever those entries are. *)
Theorem handleMediaCatalog_cap_and_kind (catalogType : MediaType) :
  (forall w,
      exists metas,
        fst (handle catalogType w) = Ok metas
        /\ (length metas <= 20)%nat
        /\ Forall (fun m =>
                     m_type m = catalogType
                     /\ exists d, parse (m_torrentName m) = Ok d
                                  /\ type d = catalogType) metas)
  /\ (forall pre post st w st1 w1,
        loop catalogType pre st w = (Ok st1, w1) ->
        (20 <= length (fst st1))%nat ->
        loop catalogType (pre ++ post) st w = (Ok st1, w1)).
Proof.
  split.
  - intros w.
    apply (handleMediaCatalog_listing catalogType w
             (fun metas =>
                (length metas <= 20)%nat
                /\ Forall (fun m =>
                             m_type m = catalogType
                             /\ exists d, parse (m_torrentName m) = Ok d
                                          /\ type d = catalogType) metas)).
    + split; [simpl; lia | constructor].
    + intros sorted w1 st' w' E.
      destruct (catalogLoop_invariant _ _ _ _ _ _ E coherent_empty)
        as (_ & Hl & added & E' & Hadd); [simpl; lia|].
      split; [exact Hl|]. rewrite E'. simpl.
      eapply Forall_impl; [exact Hadd|].
      intros m (t & _ & Ht & _ & Hn & d & Hp & Hd).
      split; [exact Ht|]. exists d. now rewrite Hn.
  - intros pre post st w st1 w1 E Hcap.
    rewrite catalogLoop_app, E. now apply catalogLoop_capped.
Qed.

(** An entry the search resolves is in the listing after its turn,
    emitted now or under the same id before. *)
Lemma catalogEntry_resolved (catalogType : MediaType) (torrent : Torrent)
    (st : list CatalogMeta * gset string) (w w1 : World) (d : Descriptor)
    (r : CineMeta) :
  parse (entryName torrent) = Ok d -> type d = catalogType ->
  search (title d) (type d) (year d) w = (Ok (Some r), w1) ->
  coherent st ->
  exists st' w',
    entry catalogType torrent st w = (Ok st', w')
    /\ coherent st' /\ (length (fst st') <= S (length (fst st)))%nat
    /\ In (cm_id r) (ids (fst st')).
Proof.
  intros Hp Ht Hs Hc. destruct st as [metas seenImdb].
  rewrite catalogEntry_spec, Hp, Hs.
  apply type_eqb_eq in Ht. rewrite Ht. cbv zeta. cbn [fst snd].
  cbv beta iota. case_bool_decide as Hseen.
  - do 2 eexists. split; [reflexivity|]. split; [exact Hc|].
    split; [simpl; lia|]. now apply Hc.
  - do 2 eexists. split; [reflexivity|].
    split; [apply (coherent_step _ _ (cinemetaEntry _ _ _ _) Hc Hseen)|].
    split; [simpl; rewrite length_app; simpl; lia|].
    unfold ids. simpl. rewrite map_app, in_app_iff. right. now left.
Qed.

(** C4.  The ids of a catalog listing are pairwise different.  And
    whenever the pass reaches an entry of the requested kind that the
    search resolves to a record, the finished listing has exactly one
    entry under that record's id, wherever in the inventory the entries
    resolving to it stand. *)
Theorem handleMediaCatalog_ids_unique (catalogType : MediaType) :
  (forall w,
      exists metas,
        fst (handle catalogType w) = Ok metas /\ NoDup (ids metas))
  /\ (forall pre torrent post w st1 w1 d r w2 st' w',
        loop catalogType pre ([], ∅) w = (Ok st1, w1) ->
        (length (fst st1) < 20)%nat ->
        parse (entryName torrent) = Ok d -> type d = catalogType ->
        search (title d) (type d) (year d) w1 = (Ok (Some r), w2) ->
        loop catalogType (pre ++ torrent :: post) ([], ∅) w = (Ok st', w') ->
        occurrences (cm_id r) (fst st') = 1%nat).
Proof.
  split.
  - intros w.
    apply (handleMediaCatalog_listing catalogType w
             (fun metas => NoDup (ids metas))); [constructor|].
    intros sorted w1 st' w' E.
    destruct (catalogLoop_invariant _ _ _ _ _ _ E coherent_empty)
      as ([Hnd _] & _); [simpl; lia | exact Hnd].
  - intros pre torrent post w st1 w1 d r w2 st' w' Hpre Hlt Hp Ht Hs Hall.
    destruct (catalogLoop_invariant _ _ _ _ _ _ Hpre coherent_empty)
      as (Hc1 & _); [simpl; lia|].
    rewrite catalogLoop_app, Hpre, catalogLoop_cons in Hall.
    destruct (Nat.leb_spec 20 (length (fst st1))); [lia|].
    destruct (catalogEntry_resolved _ torrent st1 _ _ _ _ Hp Ht Hs Hc1)
      as (st2 & w3 & Ee & Hc2 & Hl2 & Hin).
    unfold bind in Hall. rewrite Ee in Hall.
    destruct (catalogLoop_invariant _ _ _ _ _ _ Hall Hc2)
      as ([Hnd _] & _ & added & E & _); [lia|].
    apply occurrences_NoDup; [exact Hnd|].
    rewrite E. unfold ids. rewrite map_app, in_app_iff. now left.
Qed.

(** A turn of the loop whose search fails: the entry goes out under its
    fallback id. *)
Lemma catalogEntry_search_failed (catalogType : MediaType)
    (torrent : Torrent) (metas : list CatalogMeta) (seenImdb : gset string)
    (w : World) (d : Descriptor) :
  parse (entryName torrent) = Ok d -> type d = catalogType ->
  searchCache w !! cacheKey (type d) (title d) (year d) = None ->
  (net (length (netLog w)) (searchUrl (type d) (title d)) = NetFail
   \/ exists status,
        net (length (netLog w)) (searchUrl (type d) (title d))
        = HttpErr status) ->
  ("tb:" +:+ String_ (t_id torrent)) ∉ seenImdb ->
  entry catalogType torrent (metas, seenImdb) w
  = (Ok ((metas ++ [fallbackEntry catalogType torrent d])%list,
         {[ "tb:" +:+ String_ (t_id torrent) ]} ∪ seenImdb),
     log_request (searchUrl (type d) (title d)) w).
Proof.
  intros Hp Ht Hmiss Hfail Hnew.
  rewrite catalogEntry_spec, Hp.
  apply type_eqb_eq in Ht. rewrite Ht. cbv zeta.
  assert (E : search (title d) (type d) (year d) w
              = (Ok None, log_request (searchUrl (type d) (title d)) w)).
  { rewrite searchCinemeta_spec, Hmiss. simpl.
    destruct Hfail as [-> | [status ->]]; reflexivity. }
  rewrite E. cbn [fst snd]. cbv beta iota.
  case_bool_decide; [contradiction | reflexivity].
Qed.

(** There is one handler, around the whole pass: an exception of the
    name parser on an entry the pass reaches ends the pass, and the listing
    is empty. *)
Lemma handleMediaCatalog_parser_throw (catalogType : MediaType) (w : World)
    (torrents : list Torrent) (w1 : World) (pre : list Torrent)
    (torrent : Torrent) (post : list Torrent)
    (st1 : list CatalogMeta * gset string) (w2 : World) (e : string) :
  getTorboxTorrents TORBOX_API_KEY net w = (Ok torrents, w1) ->
  sort (compareTorrents Date_parse) torrents = (pre ++ torrent :: post)%list ->
  loop catalogType pre ([], ∅) w1 = (Ok st1, w2) ->
  (length (fst st1) < 20)%nat ->
  parse (entryName torrent) = Throw e ->
  handle catalogType w = (Ok [], w2).
Proof.
  intros Hpull Hsort Hpre Hlt Hp.
  unfold handleMediaCatalog, try_catch, bind. rewrite Hpull, Hsort.
  rewrite catalogLoop_app, Hpre, catalogLoop_cons.
  destruct (Nat.leb_spec 20 (length (fst st1))); [lia|].
  destruct st1 as [metas seenImdb].
  unfold bind. now rewrite catalogEntry_spec, Hp.
Qed.

(** C3, as amended.  A failed metadata search does not make the pass
    skip the entry: the failure stays inside the resolver, the entry is
    emitted under its fallback id and the loop goes on with the entries
    that follow.  A failed inventory pull yields the empty listing, and the
    handler itself never throws. *)
Theorem handleMediaCatalog_failures (catalogType : MediaType) :
  (forall torrent rest metas seenImdb w d,
      (length metas < 20)%nat ->
      parse (entryName torrent) = Ok d -> type d = catalogType ->
      searchCache w !! cacheKey (type d) (title d) (year d) = None ->
      (net (length (netLog w)) (searchUrl (type d) (title d)) = NetFail
       \/ exists status,
            net (length (netLog w)) (searchUrl (type d) (title d))
            = HttpErr status) ->
      ("tb:" +:+ String_ (t_id torrent)) ∉ seenImdb ->
      let m := fallbackEntry catalogType torrent d in
      m_id m = "tb:" +:+ String_ (t_id torrent)
      /\ m_torboxId m = t_id torrent
      /\ loop catalogType (torrent :: rest) (metas, seenImdb) w
         = loop catalogType rest
             ((metas ++ [m])%list, {[ m_id m ]} ∪ seenImdb)
             (log_request (searchUrl (type d) (title d)) w))
  /\ (forall w e w',
        getTorboxTorrents TORBOX_API_KEY net w = (Throw e, w') ->
        handle catalogType w = (Ok [], w'))
  /\ (forall w, exists metas, fst (handle catalogType w) = Ok metas).
Proof.
  split; [|split].
  - intros torrent rest metas seenImdb w d Hlt Hp Ht Hmiss Hfail Hnew.
    cbv zeta. split; [reflexivity|]. split; [reflexivity|].
    rewrite catalogLoop_cons. cbn [fst].
    destruct (Nat.leb_spec 20 (length metas)); [lia|].
    unfold bind.
    now rewrite (catalogEntry_search_failed catalogType torrent metas
                   seenImdb w d Hp Ht Hmiss Hfail Hnew).
  - intros w e w' E.
    unfold handleMediaCatalog, try_catch, bind. now rewrite E.
  - apply handleMediaCatalog_returns.
Qed.

End Catalog.

(** *** Locating the entry behind an authoritative id *)

Lemma startsWith_tt_not_tb (id : string) :
  startsWith id "tt" = true -> startsWith id "tb:" = false.
Proof.
  unfold startsWith.
  destruct id as [|c1 [|c2 s]]; cbn [String.prefix]; try discriminate.
  - destruct (ascii_dec "t" c1); discriminate.
  - destruct (ascii_dec "t" c1) as [<-|]; [|discriminate].
    destruct (ascii_dec "t" c2) as [<-|]; [|discriminate].
    reflexivity.
Qed.

Lemma scanAnnotated_first (id : string) (entries : list (string * Torrent))
    (t : Torrent) :
  scanAnnotated id entries = Some t ->
  exists pre k post,
    entries = (pre ++ (k, t) :: post)%list
    /\ t_imdbId t = Some id
    /\ Forall (fun kt => t_imdbId (snd kt) <> Some id) pre.
Proof.
  unfold scanAnnotated. induction entries as [|[k0 t0] rest IH]; simpl;
    [discriminate|].
  case_bool_decide as Hid; simpl.
  - intros [= <-]. exists [], k0, rest. repeat split; auto.
  - intros H. destruct (IH H) as (pre & k & post & -> & Ht & Hpre).
    exists ((k0, t0) :: pre), k, post. repeat split; auto.
Qed.

Lemma scanAnnotated_none (id : string) (entries : list (string * Torrent)) :
  scanAnnotated id entries = None ->
  Forall (fun kt => t_imdbId (snd kt) <> Some id) entries.
Proof.
  unfold scanAnnotated. induction entries as [|[k0 t0] rest IH]; simpl;
    [constructor|].
  case_bool_decide as Hid; simpl; [discriminate|].
  intros H. constructor; auto.
Qed.

Section Locate.

Variable TORBOX_API_KEY : option string.
Variable ptt_parse : string -> result PttResult.
Variable net : nat -> string -> Response.

Local Abbreviation parse := (parseTorrentName ptt_parse).
Local Abbreviation search := (searchCinemeta net).
Local Abbreviation scan := (scanResolve ptt_parse net).
Local Abbreviation streams := (generateStreamsForTorrent TORBOX_API_KEY net).

(** One turn of the second loop of the stream handler. *)
Lemma scanResolve_cons (id k : string) (t : Torrent)
    (rest : list (string * Torrent)) (w : World) :
  scan id ((k, t) :: rest) w =
    match parse (t_name t) with
    | Throw e => (Throw e, w)
    | Ok d =>
        match search (title d) (type d) (year d) w with
        | (Ok (Some r), w1) =>
            if cm_id r =? id then
              (Ok (Some (set_imdbId t id)),
               set_torrentsCache
                 (map_set k (set_imdbId t id) (torrentsCache w1)) w1)
            else scan id rest w1
        | (Ok None, w1) => scan id rest w1
        | (Throw e, w1) => (Throw e, w1)
        end
    end.
Proof.
  simpl. unfold bind, lift.
  destruct (parse (t_name t)) as [d|e]; [|reflexivity].
  destruct (search (title d) (type d) (year d) w) as [[[r|]|e] w1];
    try reflexivity.
  destruct (cm_id r =? id); reflexivity.
Qed.

(** The entry the second loop settles on is the first, in the order
    of the cache, whose search resolves to [id]: the entries before it
    were tried without a match, the entries after it play no part. *)
Lemma scanResolve_first (id : string) (entries : list (string * Torrent)) :
  forall w t w',
    scan id entries w = (Ok (Some t), w') ->
    exists pre k t0 post wp d r ws,
      entries = (pre ++ (k, t0) :: post)%list
      /\ scan id pre w = (Ok None, wp)
      /\ parse (t_name t0) = Ok d
      /\ search (title d) (type d) (year d) wp = (Ok (Some r), ws)
      /\ cm_id r = id
      /\ t = set_imdbId t0 id
      /\ w' = set_torrentsCache (map_set k t (torrentsCache ws)) ws.
Proof.
  induction entries as [|[k0 t0] rest IH]; intros w t w'.
  - discriminate.
  - rewrite scanResolve_cons.
    destruct (parse (t_name t0)) as [d|e] eqn:Ep; [|discriminate].
    destruct (search (title d) (type d) (year d) w) as [[[r|]|e] w1] eqn:Es;
      [| |discriminate].
    + destruct (String.eqb_spec (cm_id r) id) as [Hid|Hid].
      * intros [= <- <-].
        exists [], k0, t0, rest, w, d, r, w1. repeat split; auto.
      * intros H. destruct (IH _ _ _ H)
          as (pre & k & t1 & post & wp & d1 & r1 & ws & -> & Hpre & Hrest).
        exists ((k0, t0) :: pre), k, t1, post, wp, d1, r1, ws.
        split; [reflexivity|]. split; [|exact Hrest].
        rewrite scanResolve_cons, Ep, Es.
        destruct (String.eqb_spec (cm_id r) id); [contradiction | exact Hpre].
    + intros H. destruct (IH _ _ _ H)
        as (pre & k & t1 & post & wp & d1 & r1 & ws & -> & Hpre & Hrest).
      exists ((k0, t0) :: pre), k, t1, post, wp, d1, r1, ws.
      split; [reflexivity|]. split; [|exact Hrest].
      now rewrite scanResolve_cons, Ep, Es.
Qed.

(** C9.  For an id that starts with [tt] the stream handler settles on
    at most one inventory entry, and everything it returns and every link
    request it issues is that of this entry alone.  The entry is the first
    one, in the order of the cache after the refresh, that carries the id
    as its annotation; or, when no entry carries it, the first one whose
    name resolves to the id, the scan stopping there. *)
Theorem streamHandler_single_entry (kind id : string) (w : World) :
  startsWith id "tt" = true ->
  exists (located : option Torrent) (w1 : World),
    streamHandler TORBOX_API_KEY ptt_parse net kind id w
    = match located with
      | Some t => streams t w1
      | None => (Ok [], w1)
      end
    /\ netLog (snd (streamHandler TORBOX_API_KEY ptt_parse net kind id w))
       = (netLog w1 ++
          match located with
          | Some t => linkRequests TORBOX_API_KEY t
          | None => []
          end)%list
    /\ forall t,
         located = Some t ->
         exists torrents w0 pre k t0 post,
           getTorboxTorrents TORBOX_API_KEY net w = (Ok torrents, w0)
           /\ torrentsCache w0 = (pre ++ (k, t0) :: post)%list
           /\ t_id t = t_id t0 /\ t_files t = t_files t0
           /\ ((t = t0 /\ w1 = w0
                /\ t_imdbId t0 = Some id
                /\ Forall (fun kt => t_imdbId (snd kt) <> Some id) pre)
               \/ (Forall (fun kt => t_imdbId (snd kt) <> Some id)
                     (torrentsCache w0)
                   /\ exists wp d r ws,
                        scan id pre w0 = (Ok None, wp)
                        /\ parse (t_name t0) = Ok d
                        /\ search (title d) (type d) (year d) wp
                           = (Ok (Some r), ws)
                        /\ cm_id r = id
                        /\ t = set_imdbId t0 id
                        /\ w1 = set_torrentsCache
                                  (map_set k t (torrentsCache ws)) ws)).
Proof.
  intros Htt.
  assert (Hfound : forall t w1,
             exists out w2,
               streams t w1 = (Ok out, w2)
               /\ netLog w2
                  = (netLog w1 ++ linkRequests TORBOX_API_KEY t)%list).
  { intros t w1.
    destruct (generateStreamsForTorrent_requests TORBOX_API_KEY net t w1)
      as ([out Hout] & _ & Hlog).
    destruct (streams t w1) as [[o|e] w2]; simpl in *; [eauto | discriminate]. }
  assert (Hnone : forall w1 : World,
             netLog w1 = (netLog w1 ++ [])%list)
    by (intros; now rewrite app_nil_r).
  unfold streamHandler.
  destruct (negb (existsb (String.eqb kind) ["movie"; "series"; "other"])).
  { exists None, w. repeat split; [apply Hnone | discriminate]. }
  unfold locateTorrent. rewrite (startsWith_tt_not_tb id Htt), Htt.
  unfold try_catch, bind, get_world, ret.
  destruct (getTorboxTorrents TORBOX_API_KEY net w) as [[torrents|e] w0]
    eqn:Epull.
  2:{ exists None, w0. repeat split; [apply Hnone | discriminate]. }
  destruct (scanAnnotated id (torrentsCache w0)) as [t|] eqn:Eann.
  - exists (Some t), w0.
    destruct (Hfound t w0) as (out & w2 & -> & Hlog).
    split; [reflexivity|]. split; [exact Hlog|].
    intros t' [= <-].
    destruct (scanAnnotated_first _ _ _ Eann)
      as (pre & k & post & Hc & Ht & Hpre).
    exists torrents, w0, pre, k, t, post.
    split; [reflexivity|]. split; [exact Hc|].
    split; [reflexivity|]. split; [reflexivity|]. left. auto.
  - destruct (scan id (torrentsCache w0) w0) as [[[t|]|e] w1] eqn:Escan.
    + exists (Some t), w1.
      destruct (Hfound t w1) as (out & w2 & -> & Hlog).
      split; [reflexivity|]. split; [exact Hlog|].
      intros t' [= <-].
      destruct (scanResolve_first _ _ _ _ _ Escan)
        as (pre & k & t0 & post & wp & d & r & ws
            & Hc & Hpre & Hp & Hs & Hid & Ht & Hw).
      exists torrents, w0, pre, k, t0, post.
      split; [reflexivity|]. split; [exact Hc|].
      split; [now rewrite Ht|]. split; [now rewrite Ht|].
      right. split; [now apply scanAnnotated_none|].
      exists wp, d, r, ws. auto 10.
    + exists None, w1. repeat split; [apply Hnone | discriminate].
    + exists None, w1. repeat split; [apply Hnone | discriminate].
Qed.

End Locate.

(** *** The theorems at work *)

(** C3 as stated fails when the metadata search of an entry fails: the
    request ends in status 500, and the entry is not skipped but listed,
    under its fallback id. *)
Lemma handleMediaCatalog_failed_search_listed :
  let run := handleMediaCatalog Fixtures.key Fixtures.ptt_plain Date_parse_iso
               Fixtures.net_down movie Fixtures.w0 in
  Fixtures.net_down 1 (searchUrl movie "Movie One") = HttpErr 500
  /\ netLog (snd run) = [mylistUrl; searchUrl movie "Movie One"]
  /\ fst run
     = Ok [fallbackEntry movie Fixtures.lonely (Fixtures.d_plain "Movie One")]
  /\ m_id (fallbackEntry movie Fixtures.lonely (Fixtures.d_plain "Movie One"))
     = "tb:7".
Proof. vm_compute. repeat split; reflexivity. Qed.

(** An exception of the parser on one entry empties the whole listing:
    the entry before it had been emitted by then. *)
Example handleMediaCatalog_parser_throw_empties :
  let net := Fixtures.net_of [Fixtures.lonely; Fixtures.unparsed]
               Fixtures.search_down in
  fst (handleMediaCatalog Fixtures.key Fixtures.ptt_picky Date_parse_iso net
         movie Fixtures.w0) = Ok []
  /\ exists m,
       fst (handleMediaCatalog Fixtures.key Fixtures.ptt_plain Date_parse_iso
              net movie Fixtures.w0)
       = Ok [fallbackEntry movie Fixtures.lonely (Fixtures.d_plain "Movie One");
             m].
Proof. vm_compute. split; [reflexivity | eexists; reflexivity]. Qed.

Lemma handleMediaCatalog_failures_witness :
  let m := fallbackEntry movie Fixtures.lonely (Fixtures.d_plain "Movie One") in
  catalogLoop Fixtures.ptt_plain Fixtures.net_down movie
    [Fixtures.lonely; Fixtures.unparsed] ([], ∅) Fixtures.w0
  = catalogLoop Fixtures.ptt_plain Fixtures.net_down movie
      [Fixtures.unparsed] ([m], {[ m_id m ]} ∪ ∅)
      (log_request (searchUrl movie "Movie One") Fixtures.w0).
Proof.
  apply (proj1 (handleMediaCatalog_failures Fixtures.key Fixtures.ptt_plain
                  Date_parse_iso Fixtures.net_down movie)
           Fixtures.lonely [Fixtures.unparsed] [] ∅ Fixtures.w0
           (Fixtures.d_plain "Movie One")).
  - simpl. lia.
  - reflexivity.
  - reflexivity.
  - reflexivity.
  - right. exists 500%Z. reflexivity.
  - apply not_elem_of_empty.
Defined.

Lemma handleMediaCatalog_ids_unique_witness :
  let run := catalogLoop Fixtures.ptt_plain Fixtures.net_variants movie
               [Fixtures.variant_a; Fixtures.variant_b] ([], ∅) Fixtures.w0 in
  occurrences "tt0000001"
    (fst (match fst run with Ok st => st | Throw _ => ([], ∅) end)) = 1%nat.
Proof.
  set (first := catalogLoop Fixtures.ptt_plain Fixtures.net_variants movie
                  [Fixtures.variant_a] ([], ∅) Fixtures.w0).
  set (st1 := match fst first with Ok st => st | Throw _ => ([], ∅) end).
  intros run.
  apply (proj2 (handleMediaCatalog_ids_unique Fixtures.key Fixtures.ptt_plain
                  Date_parse_iso Fixtures.net_variants movie)
           [Fixtures.variant_a] Fixtures.variant_b [] Fixtures.w0
           st1 (snd first) (Fixtures.d_plain "Movie Name 720p") Fixtures.tt1
           (snd (searchCinemeta Fixtures.net_variants "Movie Name 720p" movie
                   None (snd first)))
           _ (snd run)).
  - vm_compute. reflexivity.
  - vm_compute. lia.
  - reflexivity.
  - reflexivity.
  - vm_compute. reflexivity.
  - vm_compute. reflexivity.
Defined.

Lemma handleMediaCatalog_cap_and_kind_witness :
  catalogLoop Fixtures.ptt_picky Fixtures.net_down movie
    (Fixtures.twenty ++ [Fixtures.unparsed]) ([], ∅) Fixtures.w0
  = catalogLoop Fixtures.ptt_picky Fixtures.net_down movie
      Fixtures.twenty ([], ∅) Fixtures.w0.
Proof.
  set (run := catalogLoop Fixtures.ptt_picky Fixtures.net_down movie
                Fixtures.twenty ([], ∅) Fixtures.w0).
  set (st1 := match fst run with Ok st => st | Throw _ => ([], ∅) end).
  assert (E : run = (Ok st1, snd run)) by (vm_compute; reflexivity).
  rewrite E.
  apply (proj2 (handleMediaCatalog_cap_and_kind Fixtures.key Fixtures.ptt_picky
                  Date_parse_iso Fixtures.net_down movie)
           Fixtures.twenty [Fixtures.unparsed] ([], ∅) Fixtures.w0
           st1 (snd run) E).
  vm_compute. lia.
Defined.

Lemma streamHandler_single_entry_witness :
  startsWith "tt0000001" "tt" = true
  /\ exists located w1,
       streamHandler Fixtures.key Fixtures.ptt_plain Fixtures.net_variants
         "movie" "tt0000001" Fixtures.w0
       = match located with
         | Some t =>
             generateStreamsForTorrent Fixtures.key Fixtures.net_variants t w1
         | None => (Ok [], w1)
         end.
Proof.
  split; [reflexivity|].
  destruct (streamHandler_single_entry Fixtures.key Fixtures.ptt_plain
              Fixtures.net_variants "movie" "tt0000001" Fixtures.w0 eq_refl)
    as (located & w1 & E & _).
  exists located, w1. exact E.
Defined.

(** ** Further properties *)

(** *** The key of the search cache *)

Lemma append_nil_l (z : string) : "" +:+ z = z.
Proof. reflexivity. Qed.

Lemma append_cons (c : ascii) (a z : string) :
  String c a +:+ z = String c (a +:+ z).
Proof. reflexivity. Qed.

Lemma has_colon_app (a b : string) :
  has_colon (a +:+ b) = has_colon a || has_colon b.
Proof.
  induction a as [|c a IH]; [reflexivity|].
  rewrite append_cons. simpl. now rewrite IH, orb_assoc.
Qed.

(** A text is split in one way only at its last colon. *)
Lemma split_last_colon (a b x y : string) :
  has_colon x = false -> has_colon y = false ->
  a +:+ ":" +:+ x = b +:+ ":" +:+ y -> a = b /\ x = y.
Proof.
  intros Hx Hy. revert b.
  induction a as [|c a IH]; intros [|c' b];
    rewrite ?append_cons, ?append_nil_l; intros E.
  - injection E as E. now split.
  - injection E as Ec E. rewrite E, has_colon_app in Hx. simpl in Hx.
    now rewrite orb_true_r in Hx.
  - injection E as Ec E. rewrite <- E, has_colon_app in Hy. simpl in Hy.
    now rewrite orb_true_r in Hy.
  - injection E as Ec E. destruct (IH _ E) as [-> ->]. now subst.
Qed.

Lemma string_of_uint_no_colon (d : Decimal.uint) :
  has_colon (NilEmpty.string_of_uint d) = false.
Proof. induction d; simpl; auto. Qed.

Lemma String__no_colon (n : Z) : has_colon (String_ n) = false.
Proof.
  unfold String_.
  destruct (Z.to_int n) as [d|d]; simpl;
    destruct d; simpl; auto using string_of_uint_no_colon.
Qed.

Lemma String__nonempty (n : Z) : String_ n <> "".
Proof.
  unfold String_.
  destruct (Z.to_int n) as [d|d]; simpl; [|discriminate].
  destruct d; simpl; discriminate.
Qed.

(** X1.  Two searches share a key of the search cache exactly when they
    agree on the kind, on the title and on the year, a year that is
    missing and a year 0 counting as the same. *)
Theorem cacheKey_injective (type1 type2 : MediaType) (title1 title2 : string)
    (year1 year2 : option Z) :
  cacheKey type1 title1 year1 = cacheKey type2 title2 year2
  <-> type1 = type2 /\ title1 = title2 /\ orNullZ year1 = orNullZ year2.
Proof.
  unfold cacheKey. split.
  - intros E.
    assert (Hy : forall y : option Z,
               has_colon (if truthyZ y then String_ (default 0%Z y) else "")
               = false).
    { intros y. destruct (truthyZ y); [apply String__no_colon | reflexivity]. }
    assert (E' : type1 = type2
                 /\ title1 +:+ ":" +:+
                      (if truthyZ year1 then String_ (default 0%Z year1) else "")
                    = title2 +:+ ":" +:+
                      (if truthyZ year2 then String_ (default 0%Z year2) else "")).
    { destruct type1, type2; unfold type_str in E;
        rewrite ?append_cons, ?append_nil_l in E; try discriminate;
        injection E as E; now split. }
    destruct E' as [-> E'].
    apply split_last_colon in E'; try apply Hy.
    destruct E' as [-> Ey]. split; [reflexivity|]. split; [reflexivity|].
    unfold orNullZ.
    destruct (truthyZ year1) eqn:E1, (truthyZ year2) eqn:E2.
    + apply String__inj in Ey.
      destruct year1, year2; simpl in *; congruence.
    + now apply String__nonempty in Ey.
    + symmetry in Ey. now apply String__nonempty in Ey.
    + reflexivity.
  - intros (-> & -> & Ey). do 3 f_equal.
    unfold orNullZ in Ey.
    destruct (truthyZ year1) eqn:E1, (truthyZ year2) eqn:E2.
    + now subst.
    + subst. simpl in E1. discriminate.
    + subst. simpl in E2. discriminate.
    + reflexivity.
Qed.

(** *** The cleaned title and the search URL *)

Lemma is_word_class (c : ascii) :
  is_word c = true ->
  is_ws c = false /\ Ascii.eqb c " " = false /\ uri_unreserved c = true.
Proof.
  destruct c as [[] [] [] [] [] [] [] []]; vm_compute; intros H;
    repeat split; congruence.
Qed.

Lemma blank_punct_class (c : ascii) :
  is_ws (blank_punct c) = false -> is_word (blank_punct c) = true.
Proof.
  unfold blank_punct. destruct (is_word c) eqn:Ew; simpl; [now rewrite Ew|].
  destruct (is_ws c) eqn:Es; [congruence | discriminate].
Qed.

Lemma collapse_single_spaced (t : string) :
  forall b,
    single_spaced b (collapse_ws b (map_string blank_punct t)) = true.
Proof.
  induction t as [|c t IH]; intros b; simpl; [reflexivity|].
  destruct (is_ws (blank_punct c)) eqn:Es.
  - destruct b; [apply IH|]. simpl. apply IH.
  - simpl. rewrite (blank_punct_class c Es). apply IH.
Qed.

Lemma single_spaced_cons (b : bool) (c : ascii) (r : string) :
  single_spaced b (String c r) = true ->
  (is_word c = true /\ single_spaced false r = true)
  \/ (is_word c = false /\ c = " "%char /\ b = false
      /\ single_spaced true r = true).
Proof.
  simpl. destruct (is_word c); [now left|].
  intros H. apply andb_prop in H. destruct H as [H Hr].
  apply andb_prop in H. destruct H as [Hc Hb].
  apply Ascii.eqb_eq in Hc. destruct b; [discriminate|]. now right.
Qed.

Lemma trim_left_single_spaced (s : string) :
  forall b, single_spaced b s = true -> single_spaced true (trim_left s) = true.
Proof.
  induction s as [|c r IH]; intros b H; [reflexivity|].
  destruct (single_spaced_cons _ _ _ H) as [[Hw Hr] | (Hw & -> & -> & Hr)].
  - simpl. destruct (is_word_class c Hw) as (-> & _). simpl. now rewrite Hw.
  - simpl. now apply (IH true).
Qed.

Lemma trim_right_single_spaced (s : string) :
  forall b,
    single_spaced b s = true ->
    single_spaced b (trim_right s) = true /\ ends_space (trim_right s) = false.
Proof.
  induction s as [|c r IH]; intros b H; [now split|].
  destruct (single_spaced_cons _ _ _ H) as [[Hw Hr] | (Hw & -> & -> & Hr)].
  - destruct (IH _ Hr) as [Hs He]. destruct (is_word_class c Hw) as (Hws & Hsp & _).
    simpl. destruct (trim_right r) as [|c2 r2].
    + rewrite Hws. simpl. now rewrite Hw, Hsp.
    + split; [simpl; now rewrite Hw | exact He].
  - destruct (IH _ Hr) as [Hs He].
    simpl. destruct (trim_right r) as [|c2 r2]; [now split|].
    split; [|exact He]. change (single_spaced true (String c2 r2) = true). exact Hs.
Qed.

Lemma single_spaced_fixed (s : string) :
  forall b,
    single_spaced b s = true ->
    map_string blank_punct s = s
    /\ (forall b', b = true \/ b' = false -> collapse_ws b' s = s)
    /\ (b = true -> trim_left s = s)
    /\ (ends_space s = false -> trim_right s = s).
Proof.
  induction s as [|c r IH]; intros b H; [repeat split; reflexivity|].
  destruct (single_spaced_cons _ _ _ H) as [[Hw Hr] | (Hw & -> & -> & Hr)].
  - destruct (IH _ Hr) as (Hm & Hc & _ & Ht).
    destruct (is_word_class c Hw) as (Hws & Hsp & _).
    repeat split.
    + simpl. rewrite Hm. unfold blank_punct. now rewrite Hw.
    + intros b' _. simpl. rewrite Hws. f_equal. apply Hc. now right.
    + intros _. simpl. now rewrite Hws.
    + intros He. simpl. destruct r as [|c2 r2]; [simpl; now rewrite Hws|].
      rewrite Ht by exact He. reflexivity.
  - destruct (IH _ Hr) as (Hm & Hc & _ & Ht).
    repeat split.
    + change (map_string blank_punct (String " " r))
        with (String " " (map_string blank_punct r)). now rewrite Hm.
    + intros b' [Hb|Hb]; [discriminate|]. subst b'. simpl. f_equal.
      apply Hc. now left.
    + discriminate.
    + intros He. simpl. destruct r as [|c2 r2]; [discriminate|].
      rewrite Ht by exact He. reflexivity.
Qed.

Lemma cleanTitle_shape (title : string) :
  single_spaced true (cleanTitle title) = true
  /\ ends_space (cleanTitle title) = false.
Proof.
  unfold cleanTitle, trim. apply trim_right_single_spaced.
  apply (trim_left_single_spaced _ false), collapse_single_spaced.
Qed.

Lemma cleanTitle_idempotent (title : string) :
  cleanTitle (cleanTitle title) = cleanTitle title.
Proof.
  destruct (cleanTitle_shape title) as [Hs He].
  destruct (single_spaced_fixed _ _ Hs) as (Hm & Hc & Hl & Hr).
  unfold cleanTitle at 1. unfold trim.
  rewrite Hm, (Hc false) by now left.
  rewrite Hl by reflexivity. now apply Hr.
Qed.

(** X2.  The title that goes into the search is made of letters, digits
    and underscores in groups separated by one space, with no space at
    either end; cleaning a cleaned title changes nothing. *)
Theorem cleanTitle_tidy (title : string) :
  single_spaced true (cleanTitle title) = true
  /\ ends_space (cleanTitle title) = false
  /\ cleanTitle (cleanTitle title) = cleanTitle title.
Proof.
  destruct (cleanTitle_shape title) as [Hs He].
  split; [exact Hs|]. split; [exact He|]. apply cleanTitle_idempotent.
Qed.

Lemma encode_single_spaced (s : string) :
  forall b, single_spaced b s = true -> encodeURIComponent s = escape_spaces s.
Proof.
  induction s as [|c r IH]; intros b H; [reflexivity|].
  destruct (single_spaced_cons _ _ _ H) as [[Hw Hr] | (Hw & -> & -> & Hr)].
  - destruct (is_word_class c Hw) as (_ & Hsp & Hu).
    simpl. rewrite Hu, Hsp. f_equal. now apply (IH false).
  - change (encodeURIComponent (String " " r))
      with ("%20" +:+ encodeURIComponent r).
    simpl escape_spaces. f_equal. now apply (IH true).
Qed.

(** X3.  The search request is addressed by the kind and the cleaned
    title alone, the year taking no part: its URL carries the cleaned title
    with [%20] for each space, nothing else in it being escaped. *)
Theorem searchUrl_of_cleanTitle (type : MediaType) (title : string) :
  searchUrl type title
  = CINEMETA_URL +:+ "/catalog/" +:+ type_str type +:+ "/top/search="
    +:+ escape_spaces (cleanTitle title) +:+ ".json"
  /\ searchUrl type (cleanTitle title) = searchUrl type title.
Proof.
  destruct (cleanTitle_shape title) as (Hs & _).
  unfold searchUrl. rewrite cleanTitle_idempotent.
  now rewrite (encode_single_spaced _ _ Hs).
Qed.

(** *** What a search returns and what it leaves behind *)

Lemma find_first {A} (f : A -> bool) (pre : list A) (r : A) (post : list A) :
  Forall (fun a => f a = false) pre -> f r = true ->
  find f (pre ++ r :: post) = Some r.
Proof.
  induction 1 as [|a pre Ha Hpre IH]; intros Hr; simpl.
  - now rewrite Hr.
  - rewrite Ha. now apply IH.
Qed.

Lemma find_nowhere {A} (f : A -> bool) (l : list A) :
  Forall (fun a => f a = false) l -> find f l = None.
Proof.
  induction 1 as [|a l Ha Hl IH]; simpl; [reflexivity|]. now rewrite Ha.
Qed.

Lemma bestMatch_year (y : Z) (first : CineMeta) (metas : list CineMeta) :
  y <> 0%Z ->
  bestMatch (Some y) first metas
  = match find (yearMatches y) metas with
    | Some yearMatch => yearMatch
    | None => first
    end.
Proof.
  intros Hy. unfold bestMatch. simpl. now destruct (Z.eqb_spec y 0).
Qed.

Section SearchResults.

Variable net : nat -> string -> Response.
Variable net_meta : nat -> string -> MetaReply.

(** X4.  Of the candidates a completed search returns, the one handed
    back for a year that is given is the first candidate of that year; it
    is the first candidate of all when no candidate is of that year, and
    when no year is given. *)
Theorem searchCinemeta_year_preference (title : string) (type : MediaType)
    (year : option Z) (w : World) (first : CineMeta) (rest : list CineMeta) :
  searchCache w !! cacheKey type title year = None ->
  net (length (netLog w)) (searchUrl type title)
  = HttpOk (BSearch (Some (first :: rest))) ->
  let result := fst (searchCinemeta net title type year w) in
  (truthyZ year = false -> result = Ok (Some first))
  /\ (forall y, year = Some y -> y <> 0%Z ->
        (forall pre r post,
            (first :: rest) = (pre ++ r :: post)%list ->
            Forall (fun m => yearMatches y m = false) pre ->
            yearMatches y r = true ->
            result = Ok (Some r))
        /\ (Forall (fun m => yearMatches y m = false) (first :: rest) ->
            result = Ok (Some first))).
Proof.
  intros Hmiss Hresp result. subst result.
  rewrite searchCinemeta_spec, Hmiss. cbv zeta. rewrite Hresp.
  cbn [fst searchOutcome]. split.
  - intros Hf. unfold bestMatch. now rewrite Hf.
  - intros y -> Hy. rewrite (bestMatch_year y first _ Hy). split.
    + intros pre r post -> Hpre Hr. now rewrite (find_first _ _ _ _ Hpre Hr).
    + intros Hnone. now rewrite (find_nowhere _ _ Hnone).
Qed.

(** X5.  A search never throws and never touches the inventory cache;
    it sends one request, to the search URL, when its key is not cached,
    and sends none and changes nothing when it is. *)
Theorem searchCinemeta_contained (title : string) (type : MediaType)
    (year : option Z) (w : World) :
  let w1 := snd (searchCinemeta net title type year w) in
  (exists r, fst (searchCinemeta net title type year w) = Ok r)
  /\ torrentsCache w1 = torrentsCache w
  /\ (searchCache w !! cacheKey type title year = None ->
      netLog w1 = (netLog w ++ [searchUrl type title])%list)
  /\ (searchCache w !! cacheKey type title year <> None -> w1 = w).
Proof.
  cbv zeta. split; [apply searchCinemeta_returns|].
  split; [apply searchCinemeta_torrentsCache|].
  rewrite searchCinemeta_spec.
  destruct (searchCache w !! cacheKey type title year) as [v|]; split;
    try congruence; try reflexivity.
  intros _. cbv zeta.
  destruct (net _ _) as [| status | body]; try reflexivity.
  simpl. destruct (searchOutcome year body); reflexivity.
Qed.

Lemma getCinemetaMeta_spec (type : MediaType) (imdbId : string) (w : World) :
  getCinemetaMeta net_meta type imdbId w =
    match cinemetaCache w !! imdbId with
    | Some m => (Ok (Some m), w)
    | None =>
        let w1 := log_request (metaUrl type imdbId) w in
        match net_meta (length (netLog w)) (metaUrl type imdbId) with
        | MetaOk (Some m) =>
            (Ok (Some m),
             set_cinemetaCache (<[imdbId := m]> (cinemetaCache w1)) w1)
        | _ => (Ok None, w1)
        end
    end.
Proof.
  unfold getCinemetaMeta, bind, get_world, try_catch.
  destruct (cinemetaCache w !! imdbId); [reflexivity|].
  destruct (net_meta _ _) as [| status | [m|]]; reflexivity.
Qed.

Lemma getCinemetaMeta_cached (type : MediaType) (imdbId : string) (w : World)
    (m : CineMeta) :
  cinemetaCache w !! imdbId = Some m ->
  getCinemetaMeta net_meta type imdbId w = (Ok (Some m), w).
Proof.
  intros H. unfold getCinemetaMeta, bind, get_world. now rewrite H.
Qed.

(** X6.  The record a search finds is at once in the by-id cache: asked
    for its id, under either kind, the lookup by id hands it back without
    a request. *)
Theorem searchCinemeta_feeds_getCinemetaMeta (title : string)
    (type : MediaType) (year : option Z) (w : World) (body : Body)
    (r : CineMeta) :
  searchCache w !! cacheKey type title year = None ->
  net (length (netLog w)) (searchUrl type title) = HttpOk body ->
  searchOutcome year body = Some r ->
  let w1 := snd (searchCinemeta net title type year w) in
  cinemetaCache w1 !! cm_id r = Some r
  /\ forall type',
       getCinemetaMeta net_meta type' (cm_id r) w1 = (Ok (Some r), w1).
Proof.
  intros Hmiss Hresp Hout. cbv zeta.
  assert (Hc : cinemetaCache (snd (searchCinemeta net title type year w))
               !! cm_id r = Some r).
  { rewrite searchCinemeta_spec, Hmiss. cbv zeta. rewrite Hresp, Hout.
    simpl. apply lookup_insert_eq. }
  split; [exact Hc|]. intros type'. now apply getCinemetaMeta_cached.
Qed.

(** X7.  A lookup by id whose id is not cached sends one request and
    touches nothing but the by-id cache.  A record that comes back is
    stored under the id asked for, and every later lookup of that id, under
    either kind, returns it without a request.  Anything else (a transport
    error, a non-success status, a body without record) gives absence,
    raises nothing and stores nothing. *)
Theorem getCinemetaMeta_caches_found (type : MediaType) (imdbId : string)
    (w : World) :
  cinemetaCache w !! imdbId = None ->
  let w1 := snd (getCinemetaMeta net_meta type imdbId w) in
  netLog w1 = (netLog w ++ [metaUrl type imdbId])%list
  /\ searchCache w1 = searchCache w
  /\ torrentsCache w1 = torrentsCache w
  /\ match net_meta (length (netLog w)) (metaUrl type imdbId) with
     | MetaOk (Some m) =>
         fst (getCinemetaMeta net_meta type imdbId w) = Ok (Some m)
         /\ cinemetaCache w1 = <[imdbId := m]> (cinemetaCache w)
         /\ forall type',
              getCinemetaMeta net_meta type' imdbId w1 = (Ok (Some m), w1)
     | _ =>
         fst (getCinemetaMeta net_meta type imdbId w) = Ok None
         /\ cinemetaCache w1 = cinemetaCache w
     end.
Proof.
  intros Hmiss. cbv zeta.
  rewrite (getCinemetaMeta_spec type imdbId w), Hmiss. cbv zeta.
  destruct (net_meta _ _) as [| status | [m|]]; cbn [fst snd];
    repeat split.
  intros type'. apply getCinemetaMeta_cached. simpl. apply lookup_insert_eq.
Qed.

End SearchResults.

(** *** Quality tags *)

Lemma upper_lower_char (c : ascii) :
  upper_char (lower_char c) = upper_char c
  /\ upper_char (upper_char c) = upper_char c.
Proof. destruct c as [[] [] [] [] [] [] [] []]; split; reflexivity. Qed.

Lemma toUpperCase_absorbs (s : string) :
  toUpperCase (toLowerCase s) = toUpperCase s
  /\ toUpperCase (toUpperCase s) = toUpperCase s.
Proof.
  unfold toUpperCase, toLowerCase.
  induction s as [|c s [IHl IHu]]; simpl; [now split|].
  destruct (upper_lower_char c) as [-> ->]. now rewrite IHl, IHu.
Qed.

(** X8.  The quality read off a name is the first tag of the list
    [2160p, 4K, UHD, 1080p, 720p, 480p, HDR, DV, REMUX] that occurs in the
    name, letter case apart, and the empty text when none does; the case of
    the name makes no difference. *)
Theorem extractQuality_priority (name : string) :
  let occurs q := includes (toUpperCase name) (toUpperCase q) in
  (forall pre q post,
      qualities = (pre ++ q :: post)%list ->
      Forall (fun q' => occurs q' = false) pre -> occurs q = true ->
      extractQuality name = q)
  /\ (Forall (fun q' => occurs q' = false) qualities ->
      extractQuality name = "")
  /\ extractQuality (toLowerCase name) = extractQuality name
  /\ extractQuality (toUpperCase name) = extractQuality name.
Proof.
  cbv zeta. unfold extractQuality. repeat split.
  - intros pre q post -> Hpre Hq. now rewrite (find_first _ _ _ _ Hpre Hq).
  - intros Hnone. now rewrite (find_nowhere _ _ Hnone).
  - now rewrite (proj1 (toUpperCase_absorbs name)).
  - now rewrite (proj2 (toUpperCase_absorbs name)).
Qed.

Lemma extractQuality_priority_witness :
  extractQuality "Movie.Name.2021.1080p.uhd.BluRay.mkv" = "UHD".
Proof.
  apply (proj1 (extractQuality_priority "Movie.Name.2021.1080p.uhd.BluRay.mkv")
           ["2160p"; "4K"] "UHD"
           ["1080p"; "720p"; "480p"; "HDR"; "DV"; "REMUX"]).
  - reflexivity.
  - repeat constructor.
  - reflexivity.
Defined.

(** *** Seconds and milliseconds *)

Section Instants.

Variable Date_parse : string -> Date.


End Instants.


(** *** Without an API key *)

Section NoKey.

Variable TORBOX_API_KEY : option string.
Variable ptt_parse : string -> result PttResult.
Variable Date_parse : string -> Date.
Variable net : nat -> string -> Response.

Hypothesis no_key : truthyS TORBOX_API_KEY = false.

Lemma streamsForFiles_no_key (torrent : Torrent) (files : list TFile) :
  forall streams w,
    streamsForFiles TORBOX_API_KEY net torrent files streams w
    = (Ok streams, w).
Proof using no_key.
  induction files as [|file rest IH]; intros streams w; simpl; [reflexivity|].
  destruct (isVideo file); [|apply IH].
  unfold bind, try_catch. rewrite getTorboxStreamLink_spec, no_key. apply IH.
Qed.

Lemma generateStreamsForTorrent_no_key (t : Torrent) (w : World) :
  generateStreamsForTorrent TORBOX_API_KEY net t w = (Ok [], w).
Proof using no_key.
  unfold generateStreamsForTorrent.
  destruct (t_files t) as [[|file rest]|];
    try apply streamsForFiles_no_key;
    unfold try_catch, bind; now rewrite getTorboxStreamLink_spec, no_key.
Qed.

(** X10.  Without an API key (unset or empty) the inventory pull throws
    before it sends anything, and the catalog and the stream handler answer
    with the empty list: no request goes out and the caches stay as they
    are. *)
Theorem no_key_nothing_sent (w : World) :
  (exists e, getTorboxTorrents TORBOX_API_KEY net w = (Throw e, w))
  /\ (forall catalogType,
        handleMediaCatalog TORBOX_API_KEY ptt_parse Date_parse net
          catalogType w = (Ok [], w))
  /\ (forall kind id,
        streamHandler TORBOX_API_KEY ptt_parse net kind id w = (Ok [], w)).
Proof using no_key.
  assert (Hpull : forall w0,
             getTorboxTorrents TORBOX_API_KEY net w0
             = (Throw "TORBOX_API_KEY non configurée", w0)).
  { intros w0. unfold getTorboxTorrents. now rewrite no_key. }
  split; [eauto|]. split.
  - intros catalogType.
    unfold handleMediaCatalog, try_catch, bind. now rewrite Hpull.
  - intros kind id. unfold streamHandler.
    destruct (negb _); [reflexivity|].
    unfold locateTorrent, try_catch, bind, get_world.
    destruct (startsWith id "tb:").
    + destruct (map_get (drop_string 3 id) (torrentsCache w)) as [t|].
      * unfold ret. now rewrite generateStreamsForTorrent_no_key.
      * now rewrite Hpull.
    + destruct (startsWith id "tt"); [now rewrite Hpull | reflexivity].
Qed.

End NoKey.

Lemma no_key_nothing_sent_witness :
  handleMediaCatalog (Some "") Fixtures.ptt_plain Date_parse_iso
    Fixtures.net_one movie Samples.w_cached = (Ok [], Samples.w_cached).
Proof.
  apply (proj1 (proj2 (no_key_nothing_sent (Some "") Fixtures.ptt_plain
                         Date_parse_iso Fixtures.net_one eq_refl
                         Samples.w_cached))).
Defined.

(** *** What a refresh does to the inventory cache *)

Lemma map_set_keyed (c : list (string * Torrent)) (t : Torrent) :
  cacheKeyed c -> cacheKeyed (map_set (String_ (t_id t)) t c).
Proof.
  unfold cacheKeyed. induction 1 as [|[k0 t0] c Hk Hc IH]; simpl.
  - repeat constructor.
  - destruct (k0 =? String_ (t_id t))%string; constructor; auto.
Qed.

Lemma refresh_keyed (l : list Torrent) :
  forall c,
    cacheKeyed c ->
    cacheKeyed (fold_left (fun c t => map_set (String_ (t_id t)) t c) l c).
Proof.
  induction l as [|t l IH]; intros c Hc; simpl; [exact Hc|].
  apply IH. now apply map_set_keyed.
Qed.

Lemma map_get_keyed (c : list (string * Torrent)) (k : string) (t : Torrent) :
  cacheKeyed c -> map_get k c = Some t -> k = String_ (t_id t).
Proof.
  unfold cacheKeyed. induction 1 as [|[k0 t0] c Hk Hc IH]; simpl;
    [discriminate|].
  destruct (String.eqb_spec k0 k) as [<-|Hne]; [|exact IH].
  intros [= <-]. exact Hk.
Qed.

Section Refresh.

Variable TORBOX_API_KEY : option string.
Variable net : nat -> string -> Response.

Lemma getTorboxTorrents_spec (w : World) :
  getTorboxTorrents TORBOX_API_KEY net w =
    if truthyS TORBOX_API_KEY then
      let w1 := log_request mylistUrl w in
      match net (length (netLog w)) mylistUrl with
      | NetFail => (Throw "request failed", w1)
      | HttpErr status => (Throw ("Erreur API Torbox: " +:+ String_ status), w1)
      | HttpOk body =>
          let torrents := match body with BList (Some l) => l | _ => [] end in
          (Ok torrents,
           set_torrentsCache
             (fold_left (fun c t => map_set (String_ (t_id t)) t c)
                torrents (torrentsCache w1)) w1)
      end
    else (Throw "TORBOX_API_KEY non configurée", w).
Proof.
  unfold getTorboxTorrents.
  destruct (truthyS TORBOX_API_KEY); simpl; [|reflexivity].
  unfold bind, fetch. destruct (net _ _); reflexivity.
Qed.

(** X11.  A refresh never drops an entry.  When the pull succeeds, what
    the cache held under a key that is not the id of a listed entry is
    still there unchanged, and every key that was present is still present;
    when the pull fails, the cache is as it was and the failure is raised
    to the caller. *)
Theorem getTorboxTorrents_keeps_unlisted (w : World) :
  truthyS TORBOX_API_KEY = true ->
  let after := torrentsCache (snd (getTorboxTorrents TORBOX_API_KEY net w)) in
  match net (length (netLog w)) mylistUrl with
  | HttpOk body =>
      let listed := match body with BList (Some l) => l | _ => [] end in
      fst (getTorboxTorrents TORBOX_API_KEY net w) = Ok listed
      /\ (forall k,
            (forall t, In t listed -> String_ (t_id t) <> k) ->
            map_get k after = map_get k (torrentsCache w))
      /\ (forall k,
            map_get k (torrentsCache w) <> None -> map_get k after <> None)
  | _ =>
      (exists e, fst (getTorboxTorrents TORBOX_API_KEY net w) = Throw e)
      /\ after = torrentsCache w
  end.
Proof.
  intros Hkey. cbv zeta. rewrite getTorboxTorrents_spec, Hkey. cbv zeta.
  destruct (net _ _) as [| status | body]; cbn [fst snd];
    [split; eauto | split; eauto |].
  split; [reflexivity|].
  set (listed := match body with BList (Some l) => l | _ => [] end).
  cbn [torrentsCache set_torrentsCache log_request].
  assert (Hlook := fun k => refresh_lookup k listed (torrentsCache w)).
  split.
  - intros k Hk. rewrite Hlook.
    destruct (find _ (rev listed)) as [t|] eqn:E; [|reflexivity].
    apply find_some in E. destruct E as [Hin E].
    apply in_rev in Hin. apply String.eqb_eq in E. now apply Hk in Hin.
  - intros k Hk. rewrite Hlook.
    destruct (find _ (rev listed)); [discriminate | exact Hk].
Qed.

End Refresh.

(** *** Keys of the inventory cache *)

Lemma keeps_keyed_refl (w : World) :
  cacheKeyed (torrentsCache w) -> cacheKeyed (torrentsCache w).
Proof. auto. Qed.

Lemma keeps_keyed_trans (w1 w2 w3 : World) :
  (cacheKeyed (torrentsCache w1) -> cacheKeyed (torrentsCache w2)) ->
  (cacheKeyed (torrentsCache w2) -> cacheKeyed (torrentsCache w3)) ->
  cacheKeyed (torrentsCache w1) -> cacheKeyed (torrentsCache w3).
Proof. auto. Qed.

Create HintDb keyed discriminated.

Ltac keyed_tac :=
  repeat
    first
      [ solve [auto with keyed nocore]
      | preserves_step keeps_keyed_refl keeps_keyed_trans
      | match goal with
        | |- preserves _ (match ?x with _ => _ end) => destruct x
        | |- preserves _ (if ?b then _ else _) => destruct b
        end ].

Section Keyed.

Variable TORBOX_API_KEY : option string.
Variable ptt_parse : string -> result PttResult.
Variable Date_parse : string -> Date.
Variable net : nat -> string -> Response.

Local Abbreviation keeps :=
  (fun w w' : World =>
     cacheKeyed (torrentsCache w) -> cacheKeyed (torrentsCache w')).

Lemma getTorboxTorrents_keyed :
  preserves keeps (getTorboxTorrents TORBOX_API_KEY net).
Proof.
  intros w Hw. rewrite getTorboxTorrents_spec.
  destruct (truthyS TORBOX_API_KEY); [|exact Hw]. cbv zeta.
  destruct (net _ _); simpl; try exact Hw. now apply refresh_keyed.
Qed.

Lemma searchCinemeta_keyed (title : string) (type : MediaType)
    (year : option Z) :
  preserves keeps (searchCinemeta net title type year).
Proof. intros w Hw. now rewrite searchCinemeta_torrentsCache. Qed.

Lemma generateStreamsForTorrent_keyed (t : Torrent) :
  preserves keeps (generateStreamsForTorrent TORBOX_API_KEY net t).
Proof.
  intros w Hw.
  destruct (generateStreamsForTorrent_requests TORBOX_API_KEY net t w)
    as (_ & -> & _). exact Hw.
Qed.

Local Hint Resolve getTorboxTorrents_keyed searchCinemeta_keyed
  generateStreamsForTorrent_keyed : keyed.

Lemma catalogEntry_keyed (catalogType : MediaType) (torrent : Torrent)
    (st : list CatalogMeta * gset string) :
  preserves keeps (catalogEntry ptt_parse net catalogType torrent st).
Proof.
  unfold catalogEntry. destruct st as [metas seenImdb]. keyed_tac.
  apply preserves_modify. intros w Hw. simpl.
  apply (map_set_keyed _ (annotate torrent _ _) Hw).
Qed.

Local Hint Resolve catalogEntry_keyed : keyed.

Lemma catalogLoop_keyed (catalogType : MediaType) (sorted : list Torrent) :
  forall st,
    preserves keeps (catalogLoop ptt_parse net catalogType sorted st).
Proof.
  induction sorted as [|torrent rest IH]; intros st; simpl; keyed_tac.
Qed.

Local Hint Resolve catalogLoop_keyed : keyed.

Lemma handleMediaCatalog_keyed (catalogType : MediaType) :
  preserves keeps
    (handleMediaCatalog TORBOX_API_KEY ptt_parse Date_parse net catalogType).
Proof. unfold handleMediaCatalog. keyed_tac. Qed.

Lemma scanResolve_keyed (id : string) (entries : list (string * Torrent)) :
  cacheKeyed entries ->
  preserves keeps (scanResolve ptt_parse net id entries).
Proof.
  unfold cacheKeyed. induction 1 as [|[k t] rest Hk Hrest IH]; simpl.
  - keyed_tac.
  - keyed_tac. apply preserves_modify. intros w Hw. simpl in *.
    rewrite Hk. apply (map_set_keyed _ (set_imdbId t id) Hw).
Qed.

Lemma locateTorrent_keyed (id : string) :
  preserves keeps (locateTorrent TORBOX_API_KEY ptt_parse net id).
Proof.
  unfold locateTorrent.
  destruct (startsWith id "tb:"); [|destruct (startsWith id "tt")].
  - intros w Hw. unfold bind, get_world.
    destruct (map_get _ (torrentsCache w)); [exact Hw|].
    pose proof (getTorboxTorrents_keyed w Hw) as Hr.
    destruct (getTorboxTorrents TORBOX_API_KEY net w) as [[l|e] w1]; exact Hr.
  - intros w Hw. unfold bind, get_world.
    pose proof (getTorboxTorrents_keyed w Hw) as Hr.
    destruct (getTorboxTorrents TORBOX_API_KEY net w) as [[l|e] w1];
      [|exact Hr].
    simpl in Hr. destruct (scanAnnotated id (torrentsCache w1)); [exact Hr|].
    now apply (scanResolve_keyed id _ Hr w1).
  - keyed_tac.
Qed.

Local Hint Resolve locateTorrent_keyed : keyed.

Lemma streamHandler_keyed (kind id : string) :
  preserves keeps (streamHandler TORBOX_API_KEY ptt_parse net kind id).
Proof. unfold streamHandler. keyed_tac. Qed.

(** X12.  Whatever calls the engine serves, every key of the inventory
    cache stays the text of the id of the entry stored under it. *)
Theorem performAll_keeps_keyed (cs : list Call) :
  forall w,
    cacheKeyed (torrentsCache w) ->
    cacheKeyed
      (torrentsCache
         (performAll TORBOX_API_KEY ptt_parse Date_parse net cs w)).
Proof.
  induction cs as [|c cs IH]; intros w Hw; simpl; [exact Hw|].
  apply IH. destruct c; simpl.
  - now apply searchCinemeta_keyed.
  - now apply getTorboxTorrents_keyed.
  - now apply handleMediaCatalog_keyed.
  - now apply streamHandler_keyed.
Qed.

End Keyed.

(** *** Streams *)

Lemma startsWith_tb (s : string) :
  startsWith ("tb:" +:+ s) "tb:" = true /\ drop_string 3 ("tb:" +:+ s) = s.
Proof.
  unfold startsWith. rewrite !append_cons, append_nil_l. cbn [String.prefix].
  repeat (destruct (ascii_dec _ _); [|congruence]).
  split; [now destruct s | reflexivity].
Qed.

Section Streams.

Variable TORBOX_API_KEY : option string.
Variable ptt_parse : string -> result PttResult.
Variable net : nat -> string -> Response.

Local Abbreviation streams := (generateStreamsForTorrent TORBOX_API_KEY net).
Local Abbreviation handler := (streamHandler TORBOX_API_KEY ptt_parse net).

Lemma generateStreamsForTorrent_ok (t : Torrent) (w : World) :
  exists out w1,
    streams t w = (Ok out, w1)
    /\ netLog w1 = (netLog w ++ linkRequests TORBOX_API_KEY t)%list.
Proof.
  destruct (generateStreamsForTorrent_requests TORBOX_API_KEY net t w)
    as ([out Hout] & _ & Hlog).
  destruct (streams t w) as [[o|e] w2]; simpl in *; [eauto | discriminate].
Qed.

(** X13.  The stream handler never throws.  For a kind other than
    movie, series and other, and for an id that starts neither with [tb:]
    nor with [tt], it answers with the empty list at once: nothing is
    requested and nothing changes. *)
Theorem streamHandler_never_throws (kind id : string) (w : World) :
  (exists out, fst (handler kind id w) = Ok out)
  /\ (existsb (String.eqb kind) ["movie"; "series"; "other"] = false ->
      handler kind id w = (Ok [], w))
  /\ (startsWith id "tb:" = false -> startsWith id "tt" = false ->
      handler kind id w = (Ok [], w)).
Proof.
  unfold streamHandler. split; [|split].
  - destruct (negb _); [simpl; eauto|].
    unfold try_catch, bind.
    destruct (locateTorrent _ _ _ id w) as [[[t|]|e] w1]; simpl; eauto.
    destruct (generateStreamsForTorrent_ok t w1) as (out & w2 & -> & _).
    simpl. eauto.
  - intros ->. reflexivity.
  - intros Htb Htt. destruct (negb _); [reflexivity|].
    unfold locateTorrent. now rewrite Htb, Htt.
Qed.

(** X14.  A fallback id leads back to the entry it was made from: when
    the keys of the cache are the ids of its entries, the entry the handler
    settles on for [tb:] followed by an id has that id, and the streams and
    link requests are those of this entry alone.  An entry the cache holds
    is used as it is, without a refresh. *)
Theorem streamHandler_fallback_id (kind : string) (n : Z) (w : World) :
  cacheKeyed (torrentsCache w) ->
  existsb (String.eqb kind) ["movie"; "series"; "other"] = true ->
  exists (located : option Torrent) (w1 : World),
    handler kind ("tb:" +:+ String_ n) w
    = match located with
      | Some t => streams t w1
      | None => (Ok [], w1)
      end
    /\ netLog (snd (handler kind ("tb:" +:+ String_ n) w))
       = (netLog w1 ++
          match located with
          | Some t => linkRequests TORBOX_API_KEY t
          | None => []
          end)%list
    /\ (forall t, located = Some t -> t_id t = n)
    /\ (forall t,
          map_get (String_ n) (torrentsCache w) = Some t ->
          located = Some t /\ w1 = w).
Proof.
  intros Hkeyed Hkind.
  assert (Hid : forall c t,
             cacheKeyed c -> map_get (String_ n) c = Some t -> t_id t = n).
  { intros c t Hc Hget. apply (map_get_keyed _ _ _ Hc) in Hget.
    symmetry. now apply String__inj. }
  assert (Hnone : forall w1 : World, netLog w1 = (netLog w1 ++ [])%list)
    by (intros; now rewrite app_nil_r).
  unfold streamHandler. rewrite Hkind. cbn [negb].
  unfold locateTorrent.
  destruct (startsWith_tb (String_ n)) as [-> ->].
  unfold try_catch, bind, get_world.
  destruct (map_get (String_ n) (torrentsCache w)) as [t|] eqn:Eget.
  - exists (Some t), w. unfold ret.
    destruct (generateStreamsForTorrent_ok t w) as (out & w2 & -> & Hlog).
    split; [reflexivity|]. split; [exact Hlog|]. split.
    + intros t' [= <-]. now apply (Hid _ _ Hkeyed).
    + intros t' [= <-]. now split.
  - pose proof (getTorboxTorrents_keyed TORBOX_API_KEY net w Hkeyed) as Hr.
    destruct (getTorboxTorrents TORBOX_API_KEY net w) as [[l|e] w1].
    + simpl in Hr. unfold ret.
      destruct (map_get (String_ n) (torrentsCache w1)) as [t|] eqn:Eget1.
      * exists (Some t), w1.
        destruct (generateStreamsForTorrent_ok t w1) as (out & w2 & -> & Hlog).
        split; [reflexivity|]. split; [exact Hlog|]. split.
        -- intros t' [= <-]. now apply (Hid _ _ Hr).
        -- discriminate.
      * exists None, w1. repeat split; try apply Hnone; discriminate.
    + exists None, w1. repeat split; try apply Hnone; discriminate.
Qed.



End Streams.

(** *** The order and the coverage of a listing *)

Section Listing.

Variable TORBOX_API_KEY : option string.
Variable ptt_parse : string -> result PttResult.
Variable Date_parse : string -> Date.
Variable net : nat -> string -> Response.

Local Abbreviation parse := (parseTorrentName ptt_parse).
Local Abbreviation search := (searchCinemeta net).
Local Abbreviation entry := (catalogEntry ptt_parse net).
Local Abbreviation loop := (catalogLoop ptt_parse net).
Local Abbreviation handle :=
  (handleMediaCatalog TORBOX_API_KEY ptt_parse Date_parse net).



Lemma catalogEntry_unresolved (catalogType : MediaType) (torrent : Torrent)
    (st : list CatalogMeta * gset string) (w w1 : World) (d : Descriptor) :
  parse (entryName torrent) = Ok d -> type d = catalogType ->
  search (title d) (type d) (year d) w = (Ok None, w1) ->
  coherent st ->
  exists st',
    entry catalogType torrent st w = (Ok st', w1)
    /\ coherent st' /\ (length (fst st') <= S (length (fst st)))%nat
    /\ In ("tb:" +:+ String_ (t_id torrent)) (ids (fst st')).
Proof.
  intros Hp Ht Hs Hc. destruct st as [metas seenImdb].
  rewrite catalogEntry_spec, Hp, Hs.
  apply type_eqb_eq in Ht. rewrite Ht. cbv zeta. cbn [fst snd].
  cbv beta iota. case_bool_decide as Hseen.
  - eexists. split; [reflexivity|]. split; [exact Hc|].
    split; [simpl; lia|]. now apply Hc.
  - eexists. split; [reflexivity|].
    split; [apply (coherent_step _ _ (fallbackEntry _ _ _) Hc Hseen)|].
    split; [simpl; rewrite length_app; simpl; lia|].
    unfold ids. simpl. rewrite map_app, in_app_iff. right. now left.
Qed.

(** X17.  An entry of the requested kind that the pass reaches and the
    search finds nothing for is not lost: the finished listing has exactly
    one entry under [tb:] followed by its id. *)
Theorem handleMediaCatalog_unresolved_listed
    (catalogType : MediaType) (pre : list Torrent) (torrent : Torrent)
    (post : list Torrent) (w : World) (st1 : list CatalogMeta * gset string)
    (w1 : World) (d : Descriptor) (w2 : World)
    (st' : list CatalogMeta * gset string) (w' : World) :
  loop catalogType pre ([], ∅) w = (Ok st1, w1) ->
  (length (fst st1) < 20)%nat ->
  parse (entryName torrent) = Ok d -> type d = catalogType ->
  search (title d) (type d) (year d) w1 = (Ok None, w2) ->
  loop catalogType (pre ++ torrent :: post) ([], ∅) w = (Ok st', w') ->
  occurrences ("tb:" +:+ String_ (t_id torrent)) (fst st') = 1%nat.
Proof.
  intros Hpre Hlt Hp Ht Hs Hall.
  destruct (catalogLoop_invariant _ _ _ _ _ _ _ _ Hpre coherent_empty)
    as (Hc1 & _); [simpl; lia|].
  rewrite catalogLoop_app, Hpre, catalogLoop_cons in Hall.
  destruct (Nat.leb_spec 20 (length (fst st1))); [lia|].
  destruct (catalogEntry_unresolved _ torrent st1 _ _ _ Hp Ht Hs Hc1)
    as (st2 & Ee & Hc2 & Hl2 & Hin).
  unfold bind in Hall. rewrite Ee in Hall.
  destruct (catalogLoop_invariant _ _ _ _ _ _ _ _ Hall Hc2)
    as ([Hnd _] & _ & added & E & _); [lia|].
  apply occurrences_NoDup; [exact Hnd|].
  rewrite E. unfold ids. rewrite map_app, in_app_iff. now left.
Qed.

End Listing.

(** *** The further properties at work *)

Lemma cacheKey_injective_witness :
  movie = movie /\ "Movie Name" = "Movie Name"
  /\ orNullZ (Some 0%Z) = orNullZ None.
Proof.
  apply (proj1 (cacheKey_injective movie movie "Movie Name" "Movie Name"
                  (Some 0%Z) None)).
  reflexivity.
Defined.

Lemma searchCinemeta_year_preference_witness :
  fst (searchCinemeta Samples.search_two "Movie Name" movie (Some 2021%Z)
         Fixtures.w0) = Ok (Some Samples.y2021).
Proof.
  refine (proj1 (proj2 (searchCinemeta_year_preference Samples.search_two
                          "Movie Name" movie (Some 2021%Z) Fixtures.w0
                          Samples.y2019 [Samples.y2021] eq_refl eq_refl)
                   2021%Z eq_refl _)
            [Samples.y2019] Samples.y2021 [] eq_refl _ eq_refl).
  - discriminate.
  - repeat constructor.
Defined.

Lemma searchCinemeta_feeds_getCinemetaMeta_witness :
  getCinemetaMeta Samples.meta_down series "tt0000001"
    (snd (searchCinemeta (Fixtures.search_all Fixtures.tt1) "Movie Name"
            movie None Fixtures.w0))
  = (Ok (Some Fixtures.tt1),
     snd (searchCinemeta (Fixtures.search_all Fixtures.tt1) "Movie Name"
            movie None Fixtures.w0)).
Proof.
  apply (proj2 (searchCinemeta_feeds_getCinemetaMeta
                  (Fixtures.search_all Fixtures.tt1) Samples.meta_down
                  "Movie Name" movie None Fixtures.w0
                  (BSearch (Some [Fixtures.tt1])) Fixtures.tt1
                  eq_refl eq_refl eq_refl) series).
Defined.

Lemma getCinemetaMeta_caches_found_witness :
  netLog (snd (getCinemetaMeta Samples.meta_found movie "tt0000021"
                 Fixtures.w0))
  = [metaUrl movie "tt0000021"].
Proof.
  apply (proj1 (getCinemetaMeta_caches_found Samples.meta_found movie
                  "tt0000021" Fixtures.w0 eq_refl)).
Defined.

Lemma getTorboxTorrents_overwrites_witness :
  exists t',
    In t' [Fixtures.variant_a; Fixtures.variant_b]
    /\ t_id t' = 2%Z
    /\ map_get "2"
         (torrentsCache
            (snd (getTorboxTorrents Fixtures.key Fixtures.net_variants
                    Samples.w_cached)))
       = Some t'.
Proof.
  apply (getTorboxTorrents_overwrites Fixtures.key Fixtures.net_variants
           Samples.w_cached [Fixtures.variant_a; Fixtures.variant_b]
           Fixtures.variant_b eq_refl eq_refl).
  right. now left.
Defined.

Lemma getTorboxTorrents_keeps_unlisted_witness :
  map_get "7"
    (torrentsCache
       (snd (getTorboxTorrents Fixtures.key Fixtures.net_variants
               Samples.w_cached)))
  = Some Samples.show.
Proof.
  pose proof (getTorboxTorrents_keeps_unlisted Fixtures.key
                Fixtures.net_variants Samples.w_cached eq_refl) as H.
  cbv zeta in H.
  change (Fixtures.net_variants (length (netLog Samples.w_cached)) mylistUrl)
    with (HttpOk (BList (Some [Fixtures.variant_a; Fixtures.variant_b])))
    in H.
  destruct H as (_ & Hkeep & _). rewrite Hkeep; [reflexivity|].
  intros t [<- | [<- | []]]; discriminate.
Defined.

Lemma performAll_keeps_keyed_witness :
  cacheKeyed
    (torrentsCache
       (performAll Fixtures.key Fixtures.ptt_plain Date_parse_iso
          Fixtures.net_variants
          [CallCatalog movie; CallStream "movie" "tt0000001"; CallRefresh]
          Fixtures.w0)).
Proof.
  apply (performAll_keeps_keyed Fixtures.key Fixtures.ptt_plain Date_parse_iso
           Fixtures.net_variants).
  constructor.
Defined.

Lemma streamHandler_never_throws_witness :
  streamHandler Fixtures.key Fixtures.ptt_plain Fixtures.net_variants
    "tv" "tt0000001" Fixtures.w0 = (Ok [], Fixtures.w0).
Proof.
  apply (proj1 (proj2 (streamHandler_never_throws Fixtures.key
                         Fixtures.ptt_plain Fixtures.net_variants
                         "tv" "tt0000001" Fixtures.w0))).
  reflexivity.
Defined.

Lemma streamHandler_fallback_id_witness :
  exists located w1,
    streamHandler Fixtures.key Fixtures.ptt_plain Samples.net_flaky
      "movie" ("tb:" +:+ String_ 7) Samples.w_cached
    = match located with
      | Some t =>
          generateStreamsForTorrent Fixtures.key Samples.net_flaky t w1
      | None => (Ok [], w1)
      end
    /\ (forall t, located = Some t -> t_id t = 7%Z).
Proof.
  destruct (streamHandler_fallback_id Fixtures.key Fixtures.ptt_plain
              Samples.net_flaky "movie" 7 Samples.w_cached)
    as (located & w1 & E & _ & Hid & _).
  - repeat constructor.
  - reflexivity.
  - exists located, w1. split; [exact E | exact Hid].
Defined.


(** With the second link request failing, the first video file is the
    only one to get a stream. *)
Example generateStreamsForTorrent_one_of_two :
  fst (generateStreamsForTorrent Fixtures.key Samples.net_flaky Samples.show
         Fixtures.w0)
  = Ok [fileStream (mkFile 3 "Show.S01E01.mkv")
          (Some "https://cdn.example/0")].
Proof. vm_compute. reflexivity. Qed.

Lemma handleMediaCatalog_unresolved_listed_witness :
  let run := catalogLoop Fixtures.ptt_plain Fixtures.net_down movie
               [Fixtures.lonely] ([], ∅) Fixtures.w0 in
  occurrences "tb:7"
    (fst (match fst run with Ok st => st | Throw _ => ([], ∅) end)) = 1%nat.
Proof.
  intros run.
  apply (handleMediaCatalog_unresolved_listed Fixtures.ptt_plain
           Fixtures.net_down movie [] Fixtures.lonely [] Fixtures.w0
           ([], ∅) Fixtures.w0 (Fixtures.d_plain "Movie One")
           (snd (searchCinemeta Fixtures.net_down "Movie One" movie None
                   Fixtures.w0))
           _ (snd run)).
  - reflexivity.
  - simpl. lia.
  - reflexivity.
  - reflexivity.
  - vm_compute. reflexivity.
  - vm_compute. reflexivity.
Defined.

Lemma sort_newest_first_witness :
  Permutation
    (sort (compareTorrents Date_parse_iso)
       [Fixtures.older; Fixtures.variant_a])
    [Fixtures.older; Fixtures.variant_a]
  /\ StronglySorted (newerFirst Date_parse_iso)
       (sort (compareTorrents Date_parse_iso)
          [Fixtures.older; Fixtures.variant_a]).
Proof.
  apply (sort_newest_first Date_parse_iso).
  repeat constructor; vm_compute; discriminate.
Defined.

(** *** What a pass asks of the metadata service and leaves in the cache *)

Section Pass.

Variable TORBOX_API_KEY : option string.
Variable ptt_parse : string -> result PttResult.
Variable Date_parse : string -> Date.
Variable net : nat -> string -> Response.

Local Abbreviation parse := (parseTorrentName ptt_parse).
Local Abbreviation search := (searchCinemeta net).
Local Abbreviation entry := (catalogEntry ptt_parse net).
Local Abbreviation loop := (catalogLoop ptt_parse net).
Local Abbreviation handle :=
  (handleMediaCatalog TORBOX_API_KEY ptt_parse Date_parse net).

Lemma catalogLoop_other_kind (catalogType : MediaType)
    (sorted : list Torrent) :
  Forall (fun t => exists d, parse (entryName t) = Ok d
                             /\ type d <> catalogType) sorted ->
  forall st w, loop catalogType sorted st w = (Ok st, w).
Proof.
  induction 1 as [|t rest (d & Hp & Ht) Hrest IH]; intros st w;
    [reflexivity|].
  rewrite catalogLoop_cons. destruct (20 <=? length (fst st))%nat;
    [reflexivity|].
  unfold bind. destruct st as [metas seenImdb].
  rewrite catalogEntry_spec, Hp.
  destruct (type_eqb (type d) catalogType) eqn:E; [|apply IH].
  apply type_eqb_eq in E. contradiction.
Qed.

(** X18.  Entries of the other kind cost no metadata request: when
    every pulled entry parses to a kind other than the requested one, the
    listing is empty and the inventory pull is the only request of the
    pass. *)
Theorem handleMediaCatalog_other_kind (catalogType : MediaType) (w : World)
    (l : list Torrent) :
  truthyS TORBOX_API_KEY = true ->
  net (length (netLog w)) mylistUrl = HttpOk (BList (Some l)) ->
  Forall (fun t => exists d, parse (entryName t) = Ok d
                             /\ type d <> catalogType) l ->
  fst (handle catalogType w) = Ok []
  /\ netLog (snd (handle catalogType w)) = (netLog w ++ [mylistUrl])%list
  /\ searchCache (snd (handle catalogType w)) = searchCache w.
Proof.
  intros Hkey Hnet Hall.
  unfold handleMediaCatalog, try_catch, bind.
  rewrite getTorboxTorrents_spec, Hkey. cbv zeta. rewrite Hnet.
  rewrite catalogLoop_other_kind; [repeat split|].
  eapply Permutation_Forall; [symmetry; apply sort_perm | exact Hall].
Qed.

(** The entries of a listing are backed by the cache [c]: each is a
    fallback entry, or the cached entry of its inventory id carries its id
    as [_imdbId]. *)
Definition backed (metas : list CatalogMeta) (c : list (string * Torrent))
    : Prop :=
  Forall (fun m =>
            m_id m = "tb:" +:+ String_ (m_torboxId m)
            \/ exists t,
                 map_get (String_ (m_torboxId m)) c = Some t
                 /\ t_imdbId t = Some (m_id m)) metas.

Lemma catalogLoop_backed (catalogType : MediaType) (sorted : list Torrent) :
  forall st w st' w',
    loop catalogType sorted st w = (Ok st', w') ->
    NoDup (map t_id sorted) ->
    Forall (fun t => truthyS (t_imdbId t) = false) sorted ->
    Forall (fun m => ~ In (m_torboxId m) (map t_id sorted)) (fst st) ->
    backed (fst st) (torrentsCache w) ->
    backed (fst st') (torrentsCache w').
Proof.
  induction sorted as [|t rest IH]; intros st w st' w'.
  - intros [= <- <-] _ _ _ Hb. exact Hb.
  - rewrite catalogLoop_cons.
    destruct (20 <=? length (fst st))%nat.
    { intros [= <- <-] _ _ _ Hb. exact Hb. }
    intros Hloop Hnd Hraw Hold Hb.
    apply NoDup_cons in Hnd. destruct Hnd as [Hnew Hnd].
    rewrite list_elem_of_In in Hnew.
    apply Forall_cons in Hraw. destruct Hraw as [Hraw_t Hraw].
    assert (Hold' : Forall (fun m => ~ In (m_torboxId m) (map t_id rest))
                      (fst st)).
    { eapply Forall_impl; [exact Hold|]. intros m Hm Hin. apply Hm.
      now right. }
    assert (Hne : Forall (fun m => m_torboxId m <> t_id t) (fst st)).
    { eapply Forall_impl; [exact Hold|]. intros m Hm E. apply Hm.
      left. now symmetry. }
    unfold bind in Hloop. destruct st as [metas seenImdb].
    rewrite catalogEntry_spec in Hloop.
    destruct (parse (entryName t)) as [d|e]; [|discriminate].
    destruct (type_eqb (type d) catalogType);
      [|now apply (IH _ _ _ _ Hloop)].
    cbv zeta in Hloop.
    pose proof (searchCinemeta_torrentsCache net (title d) (type d) (year d) w)
      as Hsame.
    destruct (search (title d) (type d) (year d) w) as [[[r|]|e] w1];
      cbn [fst snd] in *; [| |discriminate].
    + case_bool_decide.
      { apply (IH _ _ _ _ Hloop); auto. now rewrite Hsame. }
      rewrite Hraw_t in Hloop.
      apply (IH _ _ _ _ Hloop); auto; cbn [fst torrentsCache set_torrentsCache].
      * apply Forall_app. split; [exact Hold'|].
        constructor; [exact Hnew | constructor].
      * apply Forall_app. split.
        -- rewrite Hsame. clear -Hb Hne. simpl in *.
           induction Hb as [|m ms Hm Hms IHb]; [constructor|].
           apply Forall_cons in Hne. destruct Hne as [Hm_ne Hne].
           constructor; [|now apply IHb].
           destruct Hm as [Hm | (t' & Hget & Hid)]; [now left|].
           right. exists t'. split; [|exact Hid].
           rewrite map_get_set_ne; [exact Hget|].
           intros E. apply String__inj in E. now apply Hm_ne.
        -- constructor; [|constructor]. right. simpl.
           exists (annotate t (cm_id r) d).
           split; [apply map_get_set_eq | reflexivity].
    + case_bool_decide.
      { apply (IH _ _ _ _ Hloop); auto. now rewrite Hsame. }
      apply (IH _ _ _ _ Hloop); auto; cbn [fst].
      * apply Forall_app. split; [exact Hold'|].
        constructor; [exact Hnew | constructor].
      * apply Forall_app. split; [now rewrite Hsame|].
        constructor; [|constructor]. now left.
Qed.

(** X19.  At the end of a pass over freshly pulled entries with ids of
    their own, every entry of the listing is either a fallback entry, with
    the id [tb:] followed by its inventory id, or the cache holds, under
    that inventory id, an entry annotated with the listed id. *)
Theorem handleMediaCatalog_annotates (catalogType : MediaType) (w : World)
    (l : list Torrent) :
  truthyS TORBOX_API_KEY = true ->
  net (length (netLog w)) mylistUrl = HttpOk (BList (Some l)) ->
  NoDup (map t_id l) ->
  Forall (fun t => truthyS (t_imdbId t) = false) l ->
  exists metas,
    fst (handle catalogType w) = Ok metas
    /\ backed metas (torrentsCache (snd (handle catalogType w))).
Proof.
  intros Hkey Hnet Hnd Hraw.
  unfold handleMediaCatalog, try_catch, bind.
  rewrite getTorboxTorrents_spec, Hkey. cbv zeta. rewrite Hnet.
  set (sorted := sort (compareTorrents Date_parse) l).
  assert (Hperm : Permutation sorted l) by apply sort_perm.
  destruct (loop catalogType sorted ([], ∅) _) as [[st'|e] w'] eqn:El.
  - exists (fst st'). split; [reflexivity|].
    apply (catalogLoop_backed _ _ _ _ _ _ El).
    + apply (proj2 (NoDup_Permutation_proper _ _
                      (Permutation_map t_id Hperm)) Hnd).
    + eapply Permutation_Forall; [symmetry; exact Hperm | exact Hraw].
    + constructor.
    + constructor.
  - exists []. split; [reflexivity | constructor].
Qed.

End Pass.

Lemma handleMediaCatalog_other_kind_witness :
  fst (handleMediaCatalog Fixtures.key Fixtures.ptt_plain Date_parse_iso
         Fixtures.net_variants series Fixtures.w0) = Ok [].
Proof.
  apply (handleMediaCatalog_other_kind Fixtures.key Fixtures.ptt_plain
           Date_parse_iso Fixtures.net_variants series Fixtures.w0
           [Fixtures.variant_a; Fixtures.variant_b] eq_refl eq_refl).
  repeat constructor; eexists; (split; [reflexivity | discriminate]).
Defined.

Lemma handleMediaCatalog_annotates_witness :
  exists metas,
    fst (handleMediaCatalog Fixtures.key Fixtures.ptt_plain Date_parse_iso
           Fixtures.net_variants movie Fixtures.w0) = Ok metas
    /\ backed metas
         (torrentsCache
            (snd (handleMediaCatalog Fixtures.key Fixtures.ptt_plain
                    Date_parse_iso Fixtures.net_variants movie Fixtures.w0))).
Proof.
  apply (handleMediaCatalog_annotates Fixtures.key Fixtures.ptt_plain
           Date_parse_iso Fixtures.net_variants movie Fixtures.w0
           [Fixtures.variant_a; Fixtures.variant_b] eq_refl eq_refl).
  - apply (bool_decide_unpack _). vm_compute. exact I.
  - repeat constructor.
Defined.
